(** * Session lifecycle of the quiz socket server

    A shallow embedding of [src/server.js] and [utils/fileStore.js]:
    the session store, the seven socket handlers, the [broadcast] helper
    and the load-and-prune pass run at start-up.

    Modelling conventions.
    - JavaScript objects live on a heap.  The global [sessions] object maps a
      code to a reference (an index into [heap]); a handler's [session]
      variable is such a reference and its field updates are heap updates.
      A player object is only ever reachable through the [players] array of
      its session, so a reference to a player is an index into that array.
    - [sessions] is a plain object: [sessions[code]] finds an own property
      or else what the object inherits from [Object.prototype].  The only
      thing a handler can change on an inherited object is to give it an
      [isActive] property; the names so marked are part of the state.  What
      that change does to code outside this file is not modelled.
    - The fields of an event payload are strings, the score a number (a
      [Z]).  An event emitted without a payload object is an input of its
      own.
    - The backing file is missing, holds a text that is not JSON, or holds a
      JSON value.  Of the values under the keys of a JSON object the
      start-up pass tells apart [null], values without a readable time of
      creation, and session records.
    - [createdAt] is the millisecond time stamp that the ISO string written
      by [toISOString] denotes and that [new Date(...).getTime()] reads back.
    - The clock and the random bytes [nanoid] draws belong to the
      environment: they are arguments of the handlers that use them.
    - A handler is a state transformer that may end in an uncaught exception
      ([None] as its result).  [console.log] output is not recorded. *)

From stdpp Require Import gmap strings list fin_maps.
From Stdlib Require Import ZArith Ascii.

Local Open Scope Z_scope.

(** ** Data model *)

Record Player := mkPlayer {
  id : string;
  nickname : string;
  score : Z;
  isHost : bool
}.

Record Session := mkSession {
  code : string;
  name : string;
  hostPlayerId : string;
  players : list Player;
  createdAt : Z;
  isActive : bool
}.

Definition set_nickname (v : string) (p : Player) : Player :=
  {| id := id p; nickname := v; score := score p; isHost := isHost p |}.

Definition set_score (v : Z) (p : Player) : Player :=
  {| id := id p; nickname := nickname p; score := v; isHost := isHost p |}.

Definition set_isHost (v : bool) (p : Player) : Player :=
  {| id := id p; nickname := nickname p; score := score p; isHost := v |}.

Definition set_players (v : list Player) (s : Session) : Session :=
  {| code := code s; name := name s; hostPlayerId := hostPlayerId s;
     players := v; createdAt := createdAt s; isActive := isActive s |}.

Definition set_isActive (v : bool) (s : Session) : Session :=
  {| code := code s; name := name s; hostPlayerId := hostPlayerId s;
     players := players s; createdAt := createdAt s; isActive := v |}.

(** Messages the server sends.  A sessionUpdate carries whatever
    [sessions[code]] is when [broadcast] runs: a session record, or (when
    the code names no session) [undefined], an object inherited from
    [Object.prototype], or [true]. *)
Inductive Event :=
  | createSessionResponse (session : Session) (player : Player)
  | joinSessionResponse (session : Session) (player : Player)
  | rejoinSessionResponse (session : Session) (player : Player)
  | sessionUpdate (session : Session)
  | sessionUpdate_undefined
  | sessionUpdate_inherited (name : string)
  | sessionUpdate_true
  | sessionStarted
  | error (message : string).

(** What a handler does to the outside world, in program order.  A payload is
    the snapshot serialised at the time of the call. *)
Inductive Effect :=
  | SocketEmit (e : Event)                       (* socket.emit(...) *)
  | RoomEmit (room : option string) (e : Event)  (* io.to(room).emit(...) *)
  | WriteFile (snapshot : gmap string Session).  (* writeFile(PATH, JSON.stringify(sessions)) *)

(** Per-connection state: [socket.data] and the rooms the socket is in. *)
Record Socket := mkSocket {
  data : option (string * string);
  rooms : gset string
}.

(** ** The plain object [sessions] *)

(** The property names a plain object inherits from [Object.prototype];
    [__proto__] names [Object.prototype] itself, the others name functions. *)
Definition Object_prototype : list string :=
  ["constructor"; "__defineGetter__"; "__defineSetter__"; "hasOwnProperty";
   "__lookupGetter__"; "__lookupSetter__"; "isPrototypeOf";
   "propertyIsEnumerable"; "toString"; "valueOf"; "__proto__";
   "toLocaleString"].

(** [own]: the own properties, each a reference to a session object.
    [flagged]: the names of [Object_prototype] whose object has been given
    an [isActive] property (by [session.isActive = true] in startSession). *)
Record Plain := mkPlain {
  own : gmap string nat;
  flagged : gset string
}.

(** Own properties are read and written with the notations of maps. *)
Global Instance plain_lookup : Lookup string nat Plain := λ k o, own o !! k.

Global Instance plain_insert : Insert string nat Plain :=
  λ k l o, mkPlain (<[k := l]> (own o)) (flagged o).

Global Instance plain_singleton : SingletonM string nat Plain :=
  λ k l, mkPlain {[k := l]} ∅.

Global Instance plain_empty : Empty Plain := mkPlain ∅ ∅.

(** What [sessions[code]] can be. *)
Inductive Value :=
  | Undefined
  | Own (l : nat)             (* a session object *)
  | Inherited (name : string) (* the object Object.prototype holds under that name *)
  | Flag.                     (* true: Object.prototype.isActive, once it is set *)

(** [o[k]]: an own property first, then [Object.prototype].  Once
    [Object.prototype] itself has an [isActive] property, every object
    inherits it under the name [isActive]. *)
Definition property (o : Plain) (k : string) : Value :=
  match o !! k with
  | Some l => Own l
  | None =>
      if bool_decide (k ∈ Object_prototype) then Inherited k
      else if bool_decide (k = "isActive" ∧ "__proto__" ∈ flagged o) then Flag
      else Undefined
  end.

(** [o[name].isActive] for an inherited object: its own property, or the
    one it inherits from [Object.prototype]. *)
Definition inherited_isActive (o : Plain) (name : string) : bool :=
  bool_decide (name ∈ flagged o ∨ "__proto__" ∈ flagged o).

(** The state a handler runs in: the global store, the heap of session
    objects, the socket the handler closes over, and the effects so far. *)
Record St := mkSt {
  sessions : Plain;
  heap : list Session;
  socket : Socket;
  out : list Effect
}.

(** ** Handler monad: state, with [None] for an uncaught exception *)

Definition M (A : Type) : Type := St → St * option A.

Global Instance M_ret : MRet M := λ A a σ, (σ, Some a).

Global Instance M_bind : MBind M := λ A B k m σ,
  match m σ with
  | (σ1, Some a) => k a σ1
  | (σ1, None) => (σ1, None)
  end.

Definition throw {A} : M A := λ σ, (σ, None).

(** [sessions[code]]. *)
Definition sessions_get (code : string) : M Value :=
  λ σ, (σ, Some (property (sessions σ) code)).

(** [sessions[code] = session], for a code that is not [__proto__]. *)
Definition sessions_set (code : string) (l : nat) : M unit :=
  λ σ, (mkSt (<[code := l]> (sessions σ)) (heap σ) (socket σ) (out σ), Some tt).

(** [session.isActive] and [session.isActive = true] for an inherited
    object. *)
Definition inherited_isActive_get (name : string) : M bool :=
  λ σ, (σ, Some (inherited_isActive (sessions σ) name)).

Definition inherited_isActive_set (name : string) : M unit :=
  λ σ, (mkSt (mkPlain (own (sessions σ)) ({[name]} ∪ flagged (sessions σ)))
          (heap σ) (socket σ) (out σ),
        Some tt).

(** Allocation of a session object literal. *)
Definition new_session (s : Session) : M nat :=
  λ σ, (mkSt (sessions σ) (heap σ ++ [s]) (socket σ) (out σ),
        Some (length (heap σ))).

(** Reading through a reference. *)
Definition deref (l : nat) : M Session :=
  λ σ, (σ, heap σ !! l).

(** Writing through a reference. *)
Definition modify (l : nat) (f : Session → Session) : M unit :=
  λ σ, (mkSt (sessions σ) (alter f l (heap σ)) (socket σ) (out σ), Some tt).

(** Reading and writing the [i]-th element of [session.players]. *)
Definition player_at (l i : nat) : M Player :=
  s ← deref l;
  match players s !! i with
  | Some p => mret p
  | None => throw
  end.

Definition modify_player (l i : nat) (f : Player → Player) : M unit :=
  modify l (λ s, set_players (alter f i (players s)) s).

(** [session.players.push(player)]. *)
Definition players_push (l : nat) (p : Player) : M unit :=
  modify l (λ s, set_players (players s ++ [p]) s).

Definition effect (e : Effect) : M unit :=
  λ σ, (mkSt (sessions σ) (heap σ) (socket σ) (out σ ++ [e]), Some tt).

Definition socket_emit (e : Event) : M unit := effect (SocketEmit e).

Definition room_emit (room : option string) (e : Event) : M unit :=
  effect (RoomEmit room e).

Definition socket_join (room : string) : M unit :=
  λ σ, (mkSt (sessions σ) (heap σ)
          (mkSocket (data (socket σ)) ({[room]} ∪ rooms (socket σ))) (out σ),
        Some tt).

Definition socket_leave (room : string) : M unit :=
  λ σ, (mkSt (sessions σ) (heap σ)
          (mkSocket (data (socket σ)) (rooms (socket σ) ∖ {[room]})) (out σ),
        Some tt).

Definition socket_data_set (d : string * string) : M unit :=
  λ σ, (mkSt (sessions σ) (heap σ) (mkSocket (Some d) (rooms (socket σ))) (out σ),
        Some tt).

Definition socket_data_get : M (option (string * string)) :=
  λ σ, (σ, Some (data (socket σ))).

(** ** utils/fileStore.js *)

(** What [JSON.stringify(sessions)] sees: every own property of [sessions]
    with the current content of the object it refers to. *)
Definition snapshot_of (ss : Plain) (h : list Session) : gmap string Session :=
  omap (λ l, h !! l) (own ss).

Definition snapshot (σ : St) : gmap string Session :=
  snapshot_of (sessions σ) (heap σ).

(** [saveSessions(sessions)]: the write is requested and not awaited; a
    failure of the write is logged by the callback and goes nowhere else. *)
Definition saveSessions : M unit :=
  λ σ, effect (WriteFile (snapshot σ)) σ.

(** A value under a key of a parsed object, as far as the start-up pass
    tells values apart: [null]; a value in which the pass finds no time of
    creation (a number, a string, a boolean, an object or array without a
    [createdAt] that [new Date] can read); a session record.  Objects with a
    readable [createdAt] that are not session records are not modelled. *)
Inductive Entry :=
  | entry_null
  | entry_undated
  | entry_session (s : Session).

(** A parsed JSON text: [null]; a number, string or boolean; an object (an
    array counts as the object of its indices). *)
Inductive Json :=
  | json_null
  | json_primitive
  | json_object (entries : gmap string Entry).

(** The text [readFileSync] returns. *)
Inductive Text :=
  | not_json
  | text_of (j : Json).

(** The backing file. *)
Inductive File :=
  | Missing
  | Corrupt
  | Holding (j : Json).

(** The file after a write by [saveSessions] of the snapshot [m]. *)
Definition Written (m : gmap string Session) : File :=
  Holding (json_object (entry_session <$> m)).

(** [None]: the call throws. *)
Definition readFileSync (f : File) : option Text :=
  match f with
  | Missing => None
  | Corrupt => Some not_json
  | Holding j => Some (text_of j)
  end.

Definition JSON_parse (raw : Text) : option Json :=
  match raw with
  | not_json => None
  | text_of j => Some j
  end.

Definition loadSessions (f : File) : Json :=
  match readFileSync f with
  | Some raw =>
      match JSON_parse raw with
      | Some j => j
      | None => json_object ∅
      end
  | None => json_object ∅
  end.

(** The session records among the entries of a parsed file. *)
Definition sessions_of (j : Json) : gmap string Session :=
  match j with
  | json_object entries =>
      omap (λ e, match e with entry_session s => Some s | _ => None end) entries
  | _ => ∅
  end.

(** ** src/server.js: start-up *)

Definition TTL : Z := 24 * 60 * 60 * 1000.

Definition is_null (e : Entry) : bool :=
  match e with entry_null => true | _ => false end.

(** The filter callback [([, s]) => Date.now() - new Date(s.createdAt).getTime() < TTL]
    applied to the entry under [k]; [now k] is [Date.now()] as read for that
    entry.  On [null] the callback throws; without a time of creation the
    comparison is with [NaN] and fails. *)
Definition fresh_enough (now : string → Z) (k : string) (e : Entry) : option Session :=
  match e with
  | entry_session s => if bool_decide (now k - createdAt s < TTL) then Some s else None
  | _ => None
  end.

(** [Object.fromEntries(Object.entries(sessions).filter(...))]; [None] when
    [Object.entries] or the callback throws. *)
Definition prune (now : string → Z) (j : Json) : option (gmap string Session) :=
  match j with
  | json_null => None
  | json_primitive => Some ∅
  | json_object entries =>
      if bool_decide (map_Forall (λ _ e, is_null e = false) entries)
      then Some (map_imap (fresh_enough now) entries)
      else None
  end.

(** The mapping the server starts with, if start-up gets that far. *)
Definition load (now : string → Z) (f : File) : option (gmap string Session) :=
  prune now (loadSessions f).

(** ** The library function [nanoid] *)

(** The alphabet of [nanoid]: the 64 characters [A-Za-z0-9_-]. *)
Definition urlAlphabet : string :=
  "useandom-26T198340PX75pxJACKVERYMINDBUSHWOLF_GQZbfghjklqvwyzrict".

(** [urlAlphabet[byte & 63]]. *)
Definition symbol (byte : nat) : ascii :=
  default "u"%char (String.get (byte mod 64) urlAlphabet).

Fixpoint nanoid_from (size : nat) (random : nat → nat) (i : nat) : string :=
  match size with
  | O => EmptyString
  | S n => String (symbol (random i)) (nanoid_from n random (S i))
  end.

(** [nanoid(size)]: [size] characters, the [i]-th chosen by the random byte
    [random i]; [nanoid()] is [nanoid 21]. *)
Definition nanoid (size : nat) (random : nat → nat) : string :=
  nanoid_from size random 0.

Fixpoint index_in (c : ascii) (s : string) : nat :=
  match s with
  | EmptyString => O
  | String c' r => if decide (c = c') then O else S (index_in c r)
  end.

(** Random bytes under which [nanoid] spells the string [s]. *)
Definition spell (s : string) (i : nat) : nat :=
  match String.get i s with
  | Some c => index_in c urlAlphabet
  | None => O
  end.

(** ** src/server.js: helpers *)

(** [String.prototype.toUpperCase] on the characters [nanoid] draws from
    ([A-Za-z0-9_-]): a lower-case ASCII letter becomes its capital, any other
    character of that alphabet stays. *)
Definition upper_ascii (c : ascii) : ascii :=
  let n := nat_of_ascii c in
  if ((97 <=? n) && (n <=? 122))%nat then ascii_of_nat (n - 32) else c.

Fixpoint toUpperCase (s : string) : string :=
  match s with
  | EmptyString => EmptyString
  | String c r => String (upper_ascii c) (toUpperCase r)
  end.

(** The property name a key expression denotes; [None] is [undefined]. *)
Definition propertyKey (k : option string) : string :=
  match k with
  | Some s => s
  | None => "undefined"
  end.

(** [function broadcast(code)].  Unless [sessions[code]] is a session, the
    message carries what is there and the [sessions[code].players.length] of
    the log line raises a TypeError. *)
Definition broadcast (code : option string) : M unit :=
  saveSessions;;
  session ← sessions_get (propertyKey code);
  match session with
  | Own l => s ← deref l; room_emit code (sessionUpdate s)
  | Undefined => room_emit code sessionUpdate_undefined;; (throw : M unit)
  | Inherited name => room_emit code (sessionUpdate_inherited name);; (throw : M unit)
  | Flag => room_emit code sessionUpdate_true;; (throw : M unit)
  end.

(** ** src/server.js: socket handlers *)

(** [socket.on('createSession', ...)].  [random_code] and [random_id] are
    the random bytes of the two [nanoid] calls, [now] the clock. *)
Definition createSession (nickname sessionName : string)
    (random_code random_id : nat → nat) (now : Z) : M unit :=
  let code := toUpperCase (nanoid 6 random_code) in
  let playerId := nanoid 21 random_id in
  let player := mkPlayer playerId nickname 0 true in
  session ← new_session (mkSession code sessionName playerId [player] now false);
  sessions_set code session;;
  socket_join code;;
  socket_data_set (code, playerId);;
  s ← deref session;
  socket_emit (createSessionResponse s player);;
  broadcast (Some code).

(** [socket.on('joinSession', ...)].  [random_id] are the random bytes of
    [nanoid()].  On an inherited object [session.isActive] is read like any
    property and [session.players] is [undefined], so [.push] raises a
    TypeError. *)
Definition joinSession (code nickname : string) (random_id : nat → nat) : M unit :=
  session ← sessions_get code;
  match session with
  | Undefined => socket_emit (error "Session not found or already started")
  | Own session =>
      s ← deref session;
      if isActive s then socket_emit (error "Session not found or already started")
      else
        let playerId := nanoid 21 random_id in
        let player := mkPlayer playerId nickname 0 false in
        players_push session player;;
        socket_join code;;
        socket_data_set (code, playerId);;
        s ← deref session;
        socket_emit (joinSessionResponse s player);;
        broadcast (Some code)
  | Inherited name =>
      active ← inherited_isActive_get name;
      if (active : bool) then socket_emit (error "Session not found or already started")
      else throw
  | Flag => socket_emit (error "Session not found or already started")
  end.

(** [socket.on('rejoinSession', ...)].  The variable [player] is a reference:
    the index of the found or pushed element of [session.players].  On
    anything but a session [session.players.find] raises a TypeError. *)
Definition rejoinSession (code playerId nickname : string) : M unit :=
  session ← sessions_get code;
  match session with
  | Undefined => mret tt
  | Own session =>
      s ← deref session;
      player ←
        match list_find (λ p, id p = playerId) (players s) with
        | None =>
            players_push session
              (mkPlayer playerId nickname 0 (bool_decide (playerId = hostPlayerId s)));;
            mret (length (players s))
        | Some (i, _) =>
            modify_player session i
              (set_isHost (bool_decide (playerId = hostPlayerId s)));;
            modify_player session i (set_nickname nickname);;
            mret i
        end;
      saveSessions;;
      socket_join code;;
      socket_data_set (code, playerId);;
      s ← deref session;
      p ← player_at session player;
      socket_emit (rejoinSessionResponse s p);;
      broadcast (Some code)
  | Inherited _ | Flag => throw
  end.

(** [socket.on('startSession', ...)].  On an inherited object without
    [isActive] the assignment gives it one; [broadcast] then sends, and
    throws before sessionStarted is reached. *)
Definition startSession (code : string) : M unit :=
  session ← sessions_get code;
  match session with
  | Undefined => mret tt
  | Own session =>
      s ← deref session;
      if isActive s then mret tt
      else
        modify session (set_isActive true);;
        broadcast (Some code);;
        room_emit (Some code) sessionStarted
  | Inherited name =>
      active ← inherited_isActive_get name;
      if (active : bool) then mret tt
      else
        inherited_isActive_set name;;
        broadcast (Some code);;
        room_emit (Some code) sessionStarted
  | Flag => mret tt
  end.

(** [socket.on('updateScore', ...)].  On an inherited object with
    [isActive], and on [true], [session.players.find] raises a TypeError. *)
Definition updateScore (code playerId : string) (score : Z) : M unit :=
  session ← sessions_get code;
  match session with
  | Undefined => mret tt
  | Own session =>
      s ← deref session;
      if negb (isActive s) then mret tt
      else
        match list_find (λ p, id p = playerId) (players s) with
        | None => mret tt
        | Some (player, _) =>
            modify_player session player (set_score score);;
            broadcast (Some code)
        end
  | Inherited name =>
      active ← inherited_isActive_get name;
      if negb active then mret tt else throw
  | Flag => throw
  end.

(** [socket.on('leaveSession', ...)].  On anything but a session
    [session.players.filter] raises a TypeError. *)
Definition leaveSession (code playerId : string) : M unit :=
  session ← sessions_get code;
  match session with
  | Undefined => mret tt
  | Own session =>
      modify session
        (λ s, set_players (filter (λ p, id p ≠ playerId) (players s)) s);;
      socket_leave code;;
      broadcast (Some code)
  | Inherited _ | Flag => throw
  end.

(** [socket.on('disconnect', ...)].  With nothing stored in [socket.data]
    both [code] and [playerId] are [undefined].  On anything but a session
    [session.hostPlayerId] is [undefined]. *)
Definition disconnect : M unit :=
  d ← socket_data_get;
  let code := fst <$> d in
  let playerId := snd <$> d in
  session ← sessions_get (propertyKey code);
  match session with
  | Undefined => mret tt
  | Own session =>
      s ← deref session;
      (if bool_decide (playerId ≠ Some (hostPlayerId s))
       then modify session
              (λ s, set_players (filter (λ p, Some (id p) ≠ playerId) (players s)) s)
       else mret tt);;
      broadcast code
  | Inherited _ | Flag =>
      (if bool_decide (playerId ≠ None) then (throw : M unit) else mret tt);;
      broadcast code
  end.

(** ** The server as a state machine *)

(** An event on a connection, with the environment's answers it consumes.
    The fields of a payload are strings, the score a number.
    [on_no_payload] is any of the six events with a payload, emitted without
    one: the destructuring of the handler's parameter raises a TypeError
    before anything is read or written. *)
Inductive Input :=
  | on_connection
  | on_no_payload
  | on_createSession (nickname sessionName : string)
      (random_code random_id : nat → nat) (now : Z)
  | on_joinSession (code nickname : string) (random_id : nat → nat)
  | on_rejoinSession (code playerId nickname : string)
  | on_startSession (code : string)
  | on_updateScore (code playerId : string) (score : Z)
  | on_leaveSession (code playerId : string)
  | on_disconnect.

Definition handler (i : Input) : M unit :=
  match i with
  | on_connection => mret tt
  | on_no_payload => throw
  | on_createSession nickname sessionName random_code random_id now =>
      createSession nickname sessionName random_code random_id now
  | on_joinSession code nickname random_id => joinSession code nickname random_id
  | on_rejoinSession code playerId nickname => rejoinSession code playerId nickname
  | on_startSession code => startSession code
  | on_updateScore code playerId score => updateScore code playerId score
  | on_leaveSession code playerId => leaveSession code playerId
  | on_disconnect => disconnect
  end.

(** The whole process: the store, the heap, every open connection. *)
Record Server := mkServer {
  srv_sessions : Plain;
  srv_heap : list Session;
  srv_sockets : gmap nat Socket;
  srv_out : list Effect
}.

(** One event on connection [sid], handled to completion.  An event for a
    connection that is not open is not delivered.  The state reached is kept
    whether or not the handler ended in an exception. *)
Definition dispatch (ev : nat * Input) (w : Server) : Server :=
  let '(sid, i) := ev in
  match i, srv_sockets w !! sid with
  | on_connection, None =>
      mkServer (srv_sessions w) (srv_heap w)
        (<[sid := mkSocket None ∅]> (srv_sockets w)) (srv_out w)
  | on_connection, Some _ => w
  | _, None => w
  | _, Some sk =>
      let σ := (handler i (mkSt (srv_sessions w) (srv_heap w) sk (srv_out w))).1 in
      mkServer (sessions σ) (heap σ)
        (match i with
         | on_disconnect => delete sid (srv_sockets w)
         | _ => <[sid := socket σ]> (srv_sockets w)
         end)
        (out σ)
  end.

Definition run_events (evs : list (nat * Input)) (w : Server) : Server :=
  foldl (λ w ev, dispatch ev w) w evs.

(** The same session object at a later time: its identity fields are the
    ones it was created with, and it has not gone back to the lobby. *)
Definition same_session_later (s s' : Session) : Prop :=
  code s' = code s ∧ hostPlayerId s' = hostPlayerId s ∧
  createdAt s' = createdAt s ∧ (isActive s = true → isActive s' = true).

(** Every object of [h] is still there in [h'], as the same session later. *)
Definition heap_later (h h' : list Session) : Prop :=
  ∀ l s, h !! l = Some s → ∃ s', h' !! l = Some s' ∧ same_session_later s s'.

(** Every reference held by the store points into the heap. *)
Definition wf (ss : Plain) (h : list Session) : Prop :=
  ∀ c l, ss !! c = Some l → is_Some (h !! l).

(** An own property of [sessions] keeps its reference unless a reference to
    an object allocated after [h] was assigned to it. *)
Definition slot_later (ss : Plain) (h : list Session) (ss' : Plain) : Prop :=
  ∀ c l, ss !! c = Some l →
    ∃ l', ss' !! c = Some l' ∧ (l' = l ∨ (length h ≤ l')%nat).

Definition store_later (ss : Plain) (h : list Session)
    (ss' : Plain) (h' : list Session) : Prop :=
  heap_later h h' ∧ slot_later ss h ss' ∧ (wf ss h → wf ss' h').

(** A computation that takes every state to a later one. *)
Definition keeps {A} (m : M A) : Prop :=
  ∀ σ, store_later (sessions σ) (heap σ) (sessions (m σ).1) (heap (m σ).1).

(** The state the process starts in: the entries of the loaded mapping,
    each a new object, and [Object.prototype] as the runtime provides it. *)
Definition boot (m : gmap string Session) : Server :=
  let entries := map_to_list m in
  mkServer
    (mkPlain (list_to_map (zip (entries.*1) (seq 0 (length entries)))) ∅)
    (entries.*2) ∅ [].

(** [None]: the start-up pass throws and the process does not come up. *)
Definition start (now : string → Z) (f : File) : option Server :=
  boot <$> load now f.

(** ** What one event does to one session *)

(** The property of [sessions] a handler reads: the [code] of its payload,
    or for a disconnect the code stored on the socket. *)
Definition looked_up (i : Input) (d : option (string * string)) : option string :=
  match i with
  | on_connection | on_no_payload | on_createSession _ _ _ _ _ => None
  | on_joinSession code _ _ | on_rejoinSession code _ _ | on_startSession code
  | on_updateScore code _ _ | on_leaveSession code _ => Some code
  | on_disconnect => Some (propertyKey (fst <$> d))
  end.

(** The content of the session object a handler finds, once the handler is
    done with it; [d] is [socket.data]. *)
Definition session_after (i : Input) (d : option (string * string))
    (s : Session) : Session :=
  match i with
  | on_connection | on_no_payload | on_createSession _ _ _ _ _ => s
  | on_joinSession _ nickname random_id =>
      if isActive s then s
      else set_players
             (players s ++ [mkPlayer (nanoid 21 random_id) nickname 0 false]) s
  | on_rejoinSession _ playerId nickname =>
      let host := bool_decide (playerId = hostPlayerId s) in
      match list_find (λ p, id p = playerId) (players s) with
      | None => set_players (players s ++ [mkPlayer playerId nickname 0 host]) s
      | Some (k, _) =>
          set_players
            (alter (set_nickname nickname ∘ set_isHost host) k (players s)) s
      end
  | on_startSession _ => if isActive s then s else set_isActive true s
  | on_updateScore _ playerId v =>
      if isActive s then
        match list_find (λ p, id p = playerId) (players s) with
        | None => s
        | Some (k, _) => set_players (alter (set_score v) k (players s)) s
        end
      else s
  | on_leaveSession _ playerId =>
      set_players (filter (λ p, id p ≠ playerId) (players s)) s
  | on_disconnect =>
      if bool_decide (snd <$> d ≠ Some (hostPlayerId s))
      then set_players (filter (λ p, Some (id p) ≠ snd <$> d) (players s)) s
      else s
  end.

(** The inherited objects with an [isActive] of their own once a handler is
    done: only startSession gives one of them the property. *)
Definition flagged_after (i : Input) (ss : Plain) : gset string :=
  match i with
  | on_startSession code =>
      match property ss code with
      | Inherited name =>
          if inherited_isActive ss name then flagged ss else {[name]} ∪ flagged ss
      | _ => flagged ss
      end
  | _ => flagged ss
  end.

(** The snapshot most recently handed to [writeFile], if any. *)
Fixpoint last_write (es : list Effect) : option (gmap string Session) :=
  match es with
  | [] => None
  | e :: es =>
      match last_write es with
      | Some m => Some m
      | None => match e with WriteFile m => Some m | _ => None end
      end
  end.

(** ** Invariants of the data *)

(** Only a player with the host's id carries the host flag. *)
Definition host_flag_ok (s : Session) : Prop :=
  Forall (λ p, isHost p = true → id p = hostPlayerId s) (players s).

(** Nobody has scored in a session that has not started. *)
Definition lobby_scores_zero (s : Session) : Prop :=
  isActive s = false → Forall (λ p, score p = 0) (players s).

(** No two players of the session have the same id. *)
Definition ids_unique (s : Session) : Prop := NoDup (id <$> players s).

(** Every session is stored under its own code. *)
Definition keyed (ss : Plain) (h : list Session) : Prop :=
  ∀ c l s, ss !! c = Some l → h !! l = Some s → code s = c.

(** [sessions[code]] is a session or [undefined], nothing inherited. *)
Definition session_or_undefined (v : Value) : bool :=
  match v with
  | Undefined | Own _ => true
  | Inherited _ | Flag => false
  end.

(** The event carries a payload, and the key it makes its handler look up
    is no property that [sessions] inherits. *)
Definition plain_lookup_event (ss : Plain) (d : option (string * string))
    (i : Input) : Prop :=
  i ≠ on_no_payload ∧
  ∀ c, looked_up i d = Some c → session_or_undefined (property ss c) = true.

(** The characters of an upper-cased [nanoid]. *)
Definition upper_alphabet : string := "ABCDEFGHIJKLMNOPQRSTUVWXYZ0123456789_-".

Fixpoint chars (s : string) : list ascii :=
  match s with
  | EmptyString => []
  | String c r => c :: chars r
  end.

(** ** Concrete states used to exercise the theorems *)

Definition ann : Player := mkPlayer "id-ann" "Ann" 0 true.
Definition bob : Player := mkPlayer "id-bob" "Bob" 0 false.

Definition lobby_session : Session :=
  mkSession "ABC123" "Game1" "id-ann" [ann; bob] 1000 false.

Definition active_session : Session :=
  mkSession "ABC123" "Game1" "id-ann" [ann; bob] 1000 true.

Definition state_with (s : Session) (d : option (string * string)) : St :=
  mkSt {["ABC123" := 0%nat]} [s] (mkSocket d ∅) [].

Definition empty_state : St := mkSt ∅ [] (mkSocket None ∅) [].

Definition hour : Z := 60 * 60 * 1000.

Definition old_session : Session :=
  mkSession "OLD001" "Yesterday" "id-eve" [mkPlayer "id-eve" "Eve" 3 true]
    (100 * hour - 25 * hour) true.

Definition recent_session : Session :=
  mkSession "NEW001" "Today" "id-dan" [mkPlayer "id-dan" "Dan" 0 true]
    (100 * hour - 23 * hour) false.

Definition two_sessions : gmap string Session :=
  {["OLD001" := old_session; "NEW001" := recent_session]}.

(** A session created exactly 24 hours before the clock reads [100 * hour]. *)
Definition day_old_session : Session :=
  mkSession "DAY001" "Same time yesterday" "id-fay"
    [mkPlayer "id-fay" "Fay" 0 true] (100 * hour - 24 * hour) false.

(** The newcomer [joinSession] makes of the random bytes [spell "id-zed"]. *)
Definition zed : Player := mkPlayer (nanoid 21 (spell "id-zed")) "Zed" 0 false.

(** One event of each kind, on three connections, against a session that is
    already running under the code [ABC123]; the last createSession draws
    that code again. *)
Definition busy_evening : list (nat * Input) :=
  [(1%nat, on_connection);
   (1%nat, on_rejoinSession "ABC123" "id-ann" "Ann");
   (2%nat, on_connection);
   (2%nat, on_joinSession "ABC123" "Zed" (spell "id-zed"));
   (2%nat, on_rejoinSession "ABC123" "id-bob" "Bobby");
   (1%nat, on_startSession "ABC123");
   (2%nat, on_updateScore "ABC123" "id-bob" 7);
   (2%nat, on_leaveSession "ABC123" "id-bob");
   (2%nat, on_disconnect);
   (1%nat, on_disconnect);
   (3%nat, on_connection);
   (3%nat, on_createSession "Cat" "Game2" (spell "abc123") (spell "id-cat") 2000)].

Definition server_with (s : Session) : Server :=
  mkServer {["ABC123" := 0%nat]} [s] ∅ [].

(** A second session next to the first. *)
Definition other_session : Session :=
  mkSession "XYZ789" "Game9" "id-dan" [mkPlayer "id-dan" "Dan" 4 true] 5000 true.

Definition state_two (d : option (string * string)) : St :=
  mkSt {["ABC123" := 0%nat; "XYZ789" := 1%nat]} [lobby_session; other_session]
    (mkSocket d ∅) [].

(** joinSession events for one code, each on its own connection, one after
    the other: the connection, the nickname and the random bytes of its id. *)
Definition join_all (code : string) (js : list (Socket * string * (nat → nat)))
    (σ : St) : St :=
  foldl (λ σ '(sk, nickname, random_id),
           (joinSession code nickname random_id
              (mkSt (sessions σ) (heap σ) sk (out σ))).1) σ js.

(** * Properties *)

(** ** Lists and the heap *)

Lemma alter_lookup_insert {A} (f : A → A) (h : list A) l s :
  h !! l = Some s → alter f l h = <[l := f s]> h.
Proof.
  intros H. apply list_eq. intros j. destruct (decide (l = j)) as [->|Hne].
  - rewrite list_lookup_alter_eq, H. simpl.
    rewrite list_lookup_insert_eq; [done|]. by eapply lookup_lt_Some.
  - by rewrite list_lookup_alter_ne, list_lookup_insert_ne.
Qed.

Lemma lookup_insert_here {A} (h : list A) l s x :
  h !! l = Some s → <[l := x]> h !! l = Some x.
Proof. intros H. apply list_lookup_insert_eq. by eapply lookup_lt_Some. Qed.

Lemma lookup_snoc {A} (l : list A) x : (l ++ [x]) !! length l = Some x.
Proof. by rewrite lookup_app_r, Nat.sub_diag. Qed.

Lemma set_players_same s : set_players (players s) s = s.
Proof. by destruct s. Qed.

Lemma filter_keeps_all {A} (P : A → Prop) `{∀ x, Decision (P x)} (l : list A) :
  Forall P l → filter P l = l.
Proof.
  induction 1 as [|x l Hx _ IH]; [done|].
  rewrite filter_cons_True by done. by rewrite IH.
Qed.

Lemma list_find_None_Forall {A} (P : A → Prop) `{∀ x, Decision (P x)} (l : list A) :
  Forall (λ x, ¬ P x) l → list_find P l = None.
Proof. intros HF. by apply list_find_None. Qed.

(** ** Own and inherited properties *)

Lemma plain_lookup_insert_eq (o : Plain) k l : <[k := l]> o !! k = Some l.
Proof. apply lookup_insert_eq. Qed.

Lemma plain_lookup_insert_ne (o : Plain) k k' l :
  k ≠ k' → <[k := l]> o !! k' = o !! k'.
Proof. apply lookup_insert_ne. Qed.

Lemma plain_lookup_singleton_Some k k' (l l' : nat) :
  ({[k := l]} : Plain) !! k' = Some l' ↔ k = k' ∧ l = l'.
Proof. apply lookup_singleton_Some. Qed.

Lemma lookup_mkPlain (m : gmap string nat) F k : mkPlain m F !! k = m !! k.
Proof. reflexivity. Qed.

Lemma lookup_mkPlain_own (o : Plain) F k : mkPlain (own o) F !! k = o !! k.
Proof. reflexivity. Qed.

Lemma snapshot_of_lookup ss h c :
  snapshot_of ss h !! c = ss !! c ≫= (λ l, h !! l).
Proof. unfold snapshot_of. apply lookup_omap. Qed.

Lemma property_own o k l : o !! k = Some l → property o k = Own l.
Proof. intros H. unfold property. by rewrite H. Qed.

Lemma property_Own o k l : property o k = Own l ↔ o !! k = Some l.
Proof.
  unfold property. destruct (o !! k) as [l'|].
  - split; congruence.
  - repeat case_bool_decide; split; congruence.
Qed.

Lemma property_inherited o k :
  o !! k = None → k ∈ Object_prototype → property o k = Inherited k.
Proof.
  intros H Hk. unfold property. rewrite H. by rewrite bool_decide_eq_true_2.
Qed.

Lemma property_not_own o k :
  (∀ l, property o k ≠ Own l) → o !! k = None.
Proof.
  intros H. destruct (o !! k) as [l|] eqn:Hk; [|done].
  by destruct (H l); apply property_own.
Qed.

Lemma property_Inherited o k name :
  property o k = Inherited name → o !! k = None ∧ name = k ∧ k ∈ Object_prototype.
Proof.
  unfold property. destruct (o !! k) as [l|]; [done|].
  repeat case_bool_decide; intros [= <-] || intros [=]. done.
Qed.

Lemma property_flagged o F k : property (mkPlain (own o) F) k = property o k
  ∨ (property o k = Undefined ∧ property (mkPlain (own o) F) k = Flag)
  ∨ (property o k = Flag ∧ property (mkPlain (own o) F) k = Undefined).
Proof.
  unfold property. rewrite lookup_mkPlain_own.
  destruct (o !! k) as [l|]; [by left|].
  repeat case_bool_decide; auto.
Qed.

(** Unfolds a handler into a function of the state. *)
Ltac run_unfold :=
  unfold createSession, joinSession, rejoinSession, startSession, updateScore,
    leaveSession, disconnect, broadcast, saveSessions, player_at, players_push,
    modify_player, socket_emit, room_emit, effect, socket_join, socket_data_set,
    socket_leave, socket_data_get, sessions_get, sessions_set, deref, modify,
    inherited_isActive_get, inherited_isActive_set,
    new_session, throw, snapshot, mbind, M_bind, mret, M_ret.

(** ** joinSession *)

Lemma joinSession_undefined σ code nickname random_id :
  property (sessions σ) code = Undefined →
  joinSession code nickname random_id σ =
    (mkSt (sessions σ) (heap σ) (socket σ)
       (out σ ++ [SocketEmit (error "Session not found or already started")]),
     Some tt).
Proof. intros Hp. run_unfold. simpl. by rewrite Hp. Qed.

Lemma joinSession_active σ code nickname random_id l s :
  sessions σ !! code = Some l → heap σ !! l = Some s → isActive s = true →
  joinSession code nickname random_id σ =
    (mkSt (sessions σ) (heap σ) (socket σ)
       (out σ ++ [SocketEmit (error "Session not found or already started")]),
     Some tt).
Proof.
  intros Hc Hl Ha. run_unfold. simpl. rewrite (property_own _ _ _ Hc). simpl.
  rewrite Hl. simpl. by rewrite Ha.
Qed.

(** C2. The claim fails on the code for a code that names no session but is
    a property every plain object inherits, such as [constructor]:
    [sessions[code]] is then an object, the guard [!session ||
    session.isActive] lets it through, and [session.players.push] raises a
    TypeError.  The handler ends in that exception; the caller gets no
    error reply (nothing is sent at all, nothing changes). *)
Theorem joinSession_inherited_throws σ code nickname random_id :
  sessions σ !! code = None → code ∈ Object_prototype →
  inherited_isActive (sessions σ) code = false →
  joinSession code nickname random_id σ = (σ, None).
Proof.
  intros Hc Hin Ha. run_unfold. simpl.
  rewrite (property_inherited _ _ Hc Hin). simpl. by rewrite Ha.
Qed.

Lemma joinSession_inherited_throws_witness :
  joinSession "constructor" "Bob" (spell "id-bob") (state_with lobby_session None) =
    (state_with lobby_session None, None).
Proof.
  apply (joinSession_inherited_throws (state_with lobby_session None)
           "constructor" "Bob" (spell "id-bob")).
  - reflexivity.
  - apply list_elem_of_here.
  - reflexivity.
Defined.

(** ** startSession *)

Lemma startSession_lobby σ code l s :
  sessions σ !! code = Some l → heap σ !! l = Some s → isActive s = false →
  let s' := set_isActive true s in
  let h' := <[l := s']> (heap σ) in
  startSession code σ =
    (mkSt (sessions σ) h' (socket σ)
       (out σ ++ [WriteFile (snapshot_of (sessions σ) h');
                  RoomEmit (Some code) (sessionUpdate s');
                  RoomEmit (Some code) sessionStarted]),
     Some tt).
Proof.
  intros Hc Hl Ha s' h'.
  run_unfold. simpl. rewrite (property_own _ _ _ Hc). simpl. rewrite Hl. simpl.
  rewrite Ha. simpl. rewrite (property_own _ _ _ Hc). simpl.
  rewrite (alter_lookup_insert _ _ _ _ Hl).
  rewrite (lookup_insert_here _ _ _ _ Hl). simpl.
  by rewrite <- !app_assoc.
Qed.

(** C5. The claim fails on the code for a code that names no session but is
    a property every plain object inherits, such as [__proto__] or
    [constructor]: the handler is no no-op there.  [sessions[code]] is an
    object without [isActive]; the handler gives it one, writes the file,
    sends the room a sessionUpdate carrying that object and ends in the
    TypeError of [broadcast], before sessionStarted. *)
Theorem startSession_inherited_acts σ code :
  sessions σ !! code = None → code ∈ Object_prototype →
  inherited_isActive (sessions σ) code = false →
  startSession code σ =
    (mkSt (mkPlain (own (sessions σ)) ({[code]} ∪ flagged (sessions σ)))
       (heap σ) (socket σ)
       (out σ ++ [WriteFile (snapshot σ);
                  RoomEmit (Some code) (sessionUpdate_inherited code)]),
     None).
Proof.
  intros Hc Hin Ha. run_unfold. simpl.
  rewrite (property_inherited _ _ Hc Hin). simpl. rewrite Ha. simpl.
  rewrite property_inherited by (by rewrite ?lookup_mkPlain_own).
  simpl. by rewrite <- !app_assoc.
Qed.

Lemma startSession_inherited_acts_witness :
  startSession "__proto__" (state_with lobby_session None) =
    (mkSt (mkPlain {["ABC123" := 0%nat]} ({["__proto__"]} ∪ ∅)) [lobby_session]
       (mkSocket None ∅)
       [WriteFile (snapshot (state_with lobby_session None));
        RoomEmit (Some "__proto__") (sessionUpdate_inherited "__proto__")],
     None).
Proof.
  apply (startSession_inherited_acts (state_with lobby_session None) "__proto__").
  - reflexivity.
  - apply (bool_decide_unpack _). vm_compute. exact I.
  - reflexivity.
Defined.

(** ** rejoinSession *)

(** C1. A rejoinSession whose [playerId] matches no player of an existing
    session appends exactly one player, with score 0 and [isHost] equal to
    [playerId === hostPlayerId]; nothing is asked of [isActive], so this
    holds for an active session as well. *)
Theorem rejoinSession_unknown σ code playerId nickname l s :
  sessions σ !! code = Some l → heap σ !! l = Some s →
  Forall (λ p, id p ≠ playerId) (players s) →
  let p := mkPlayer playerId nickname 0 (bool_decide (playerId = hostPlayerId s)) in
  let s' := set_players (players s ++ [p]) s in
  let h' := <[l := s']> (heap σ) in
  rejoinSession code playerId nickname σ =
    (mkSt (sessions σ) h'
       (mkSocket (Some (code, playerId)) ({[code]} ∪ rooms (socket σ)))
       (out σ ++ [WriteFile (snapshot_of (sessions σ) h');
                  SocketEmit (rejoinSessionResponse s' p);
                  WriteFile (snapshot_of (sessions σ) h');
                  RoomEmit (Some code) (sessionUpdate s')]),
     Some tt)
  ∧ h' !! l = Some s'
  ∧ players s' = players s ++ [p]
  ∧ isActive s' = isActive s.
Proof.
  intros Hc Hl Hf p s' h'.
  assert (list_find (λ p, id p = playerId) (players s) = None) as Hfind
    by (by apply list_find_None).
  split; [|split; [by eapply lookup_insert_here|done]].
  run_unfold. simpl. rewrite (property_own _ _ _ Hc). simpl. rewrite Hl. simpl.
  rewrite Hfind. simpl.
  rewrite (alter_lookup_insert _ _ _ _ Hl), (lookup_insert_here _ _ _ _ Hl). simpl.
  rewrite lookup_snoc. simpl. rewrite (property_own _ _ _ Hc). simpl.
  rewrite (lookup_insert_here _ _ _ _ Hl). simpl.
  by rewrite <- !app_assoc.
Qed.

Lemma rejoinSession_unknown_witness :
  let p := mkPlayer "id-zed" "Zed" 0 false in
  let s' := set_players [ann; bob; p] active_session in
  rejoinSession "ABC123" "id-zed" "Zed" (state_with active_session None) =
    (mkSt {["ABC123" := 0%nat]} [s']
       (mkSocket (Some ("ABC123", "id-zed")) ({["ABC123"]} ∪ ∅))
       [WriteFile (snapshot_of {["ABC123" := 0%nat]} [s']);
        SocketEmit (rejoinSessionResponse s' p);
        WriteFile (snapshot_of {["ABC123" := 0%nat]} [s']);
        RoomEmit (Some "ABC123") (sessionUpdate s')],
     Some tt).
Proof.
  apply (rejoinSession_unknown (state_with active_session None)
           "ABC123" "id-zed" "Zed" 0%nat active_session).
  - reflexivity.
  - reflexivity.
  - repeat constructor; discriminate.
Defined.

(** C7. A rejoinSession whose [playerId] matches a player rewrites the first
    such entry in place: its nickname becomes the supplied one and its
    [isHost] is recomputed as [playerId === hostPlayerId], its id and score
    stay; the list keeps its length and every other entry is as before. *)
Theorem rejoinSession_known σ code playerId nickname l s :
  sessions σ !! code = Some l → heap σ !! l = Some s →
  Exists (λ p, id p = playerId) (players s) →
  ∃ i p,
    players s !! i = Some p ∧ id p = playerId ∧
    (∀ j q, players s !! j = Some q → (j < i)%nat → id q ≠ playerId) ∧
    let p' := mkPlayer (id p) nickname (score p)
                (bool_decide (playerId = hostPlayerId s)) in
    let s' := set_players (<[i := p']> (players s)) s in
    let h' := <[l := s']> (heap σ) in
    rejoinSession code playerId nickname σ =
      (mkSt (sessions σ) h'
         (mkSocket (Some (code, playerId)) ({[code]} ∪ rooms (socket σ)))
         (out σ ++ [WriteFile (snapshot_of (sessions σ) h');
                    SocketEmit (rejoinSessionResponse s' p');
                    WriteFile (snapshot_of (sessions σ) h');
                    RoomEmit (Some code) (sessionUpdate s')]),
       Some tt)
    ∧ length (players s') = length (players s)
    ∧ players s' !! i = Some p'
    ∧ (∀ j, j ≠ i → players s' !! j = players s !! j).
Proof.
  intros Hc Hl Hex.
  apply Exists_exists in Hex as (x & Hx & Hid).
  destruct (list_find_elem_of (λ p, id p = playerId) _ x Hx Hid) as [[i p] Hfind].
  pose proof Hfind as (Hi & Hp & Hfirst)%list_find_Some.
  exists i, p. split; [done|]. split; [done|]. split; [exact Hfirst|].
  intros p' s' h'. split; [|split; [|split]].
  - run_unfold. simpl. rewrite (property_own _ _ _ Hc). simpl. rewrite Hl. simpl.
    rewrite Hfind. simpl.
    rewrite (alter_lookup_insert _ _ _ _ Hl). simpl.
    erewrite alter_lookup_insert by (by eapply lookup_insert_here).
    rewrite list_insert_insert_eq. simpl.
    rewrite (alter_lookup_insert _ _ _ _ Hi).
    erewrite alter_lookup_insert by (by eapply lookup_insert_here).
    rewrite list_insert_insert_eq.
    rewrite (lookup_insert_here _ _ _ _ Hl). simpl.
    rewrite (lookup_insert_here _ _ _ _ Hi). simpl.
    rewrite (property_own _ _ _ Hc). simpl.
    rewrite (lookup_insert_here _ _ _ _ Hl). simpl.
    by rewrite <- !app_assoc.
  - simpl. apply length_insert.
  - simpl. by eapply lookup_insert_here.
  - intros j Hj. simpl. by apply list_lookup_insert_ne.
Qed.

Lemma rejoinSession_known_witness :
  ∃ σ',
    rejoinSession "ABC123" "id-bob" "Bobby" (state_with active_session None) =
      (σ', Some tt) ∧
    heap σ' = [set_players [ann; mkPlayer "id-bob" "Bobby" 0 false] active_session].
Proof.
  destruct (rejoinSession_known (state_with active_session None)
              "ABC123" "id-bob" "Bobby" 0%nat active_session)
    as (i & p & Hi & Hp & Hfirst & Hrun & _).
  - reflexivity.
  - reflexivity.
  - apply Exists_cons_tl, Exists_cons_hd. reflexivity.
  - eexists. split; [exact Hrun|].
    destruct i as [|[|i]]; simpl in Hi; [| |discriminate].
    + injection Hi as <-. discriminate Hp.
    + injection Hi as <-. reflexivity.
Defined.

(** ** updateScore *)

(** C6. On an active session with a player of the given id, updateScore sets
    the score of the first such player to exactly the value supplied and
    leaves every other entry as it was, then broadcasts; on a lobby session,
    a missing session or an unknown player it changes nothing and has no
    effect.  When [sessions[code]] is undefined it returns at once; when no
    session is stored under the code the state is as before in every case,
    also where [sessions[code]] is a property inherited from
    [Object.prototype]. *)
Theorem updateScore_spec σ code playerId v :
  (∀ l s, sessions σ !! code = Some l → heap σ !! l = Some s →
     isActive s = true → Exists (λ p, id p = playerId) (players s) →
     ∃ i p,
       players s !! i = Some p ∧ id p = playerId ∧
       (∀ j q, players s !! j = Some q → (j < i)%nat → id q ≠ playerId) ∧
       let p' := mkPlayer (id p) (nickname p) v (isHost p) in
       let s' := set_players (<[i := p']> (players s)) s in
       let h' := <[l := s']> (heap σ) in
       updateScore code playerId v σ =
         (mkSt (sessions σ) h' (socket σ)
            (out σ ++ [WriteFile (snapshot_of (sessions σ) h');
                       RoomEmit (Some code) (sessionUpdate s')]),
          Some tt)
       ∧ players s' !! i = Some p'
       ∧ (∀ j, j ≠ i → players s' !! j = players s !! j))
  ∧ (∀ l s, sessions σ !! code = Some l → heap σ !! l = Some s →
       isActive s = false → updateScore code playerId v σ = (σ, Some tt))
  ∧ (property (sessions σ) code = Undefined →
       updateScore code playerId v σ = (σ, Some tt))
  ∧ (sessions σ !! code = None → (updateScore code playerId v σ).1 = σ)
  ∧ (∀ l s, sessions σ !! code = Some l → heap σ !! l = Some s →
       Forall (λ p, id p ≠ playerId) (players s) →
       updateScore code playerId v σ = (σ, Some tt)).
Proof.
  split; [|split; [|split; [|split]]].
  - intros l s Hc Hl Ha Hex.
    apply Exists_exists in Hex as (x & Hx & Hid).
    destruct (list_find_elem_of (λ p, id p = playerId) _ x Hx Hid) as [[i p] Hfind].
    pose proof Hfind as (Hi & Hp & Hfirst)%list_find_Some.
    exists i, p. split; [done|]. split; [done|]. split; [exact Hfirst|].
    intros p' s' h'. split; [|split].
    + run_unfold. simpl. rewrite (property_own _ _ _ Hc). simpl. rewrite Hl. simpl.
      rewrite Ha. simpl. rewrite Hfind. simpl. rewrite (property_own _ _ _ Hc). simpl.
      rewrite (alter_lookup_insert _ _ _ _ Hl). simpl.
      rewrite (alter_lookup_insert _ _ _ _ Hi).
      rewrite (lookup_insert_here _ _ _ _ Hl). simpl.
      by rewrite <- !app_assoc.
    + simpl. by eapply lookup_insert_here.
    + intros j Hj. simpl. by apply list_lookup_insert_ne.
  - intros l s Hc Hl Ha. run_unfold. simpl. rewrite (property_own _ _ _ Hc). simpl.
    rewrite Hl. simpl. by rewrite Ha.
  - intros Hc. run_unfold. simpl. by rewrite Hc.
  - intros Hc. run_unfold. simpl.
    destruct (property (sessions σ) code) as [|l|name|] eqn:Hp; simpl; try done.
    + apply property_Own in Hp. congruence.
    + by destruct (inherited_isActive (sessions σ) name).
  - intros l s Hc Hl Hf.
    assert (list_find (λ p, id p = playerId) (players s) = None) as Hfind
      by (by apply list_find_None).
    run_unfold. simpl. rewrite (property_own _ _ _ Hc). simpl. rewrite Hl. simpl.
    destruct (isActive s); simpl; [|done]. by rewrite Hfind.
Qed.

Lemma updateScore_spec_witness :
  (∃ σ', updateScore "ABC123" "id-ann" 10 (state_with active_session None) =
           (σ', Some tt) ∧
         heap σ' = [set_players [mkPlayer "id-ann" "Ann" 10 true; bob] active_session])
  ∧ updateScore "ABC123" "id-ann" 10 (state_with lobby_session None) =
      (state_with lobby_session None, Some tt)
  ∧ updateScore "NOSUCH" "id-ann" 10 (state_with active_session None) =
      (state_with active_session None, Some tt)
  ∧ (updateScore "toString" "id-ann" 10 (state_with active_session None)).1 =
      state_with active_session None
  ∧ updateScore "ABC123" "id-zed" 10 (state_with active_session None) =
      (state_with active_session None, Some tt).
Proof.
  split; [|split; [|split; [|split]]].
  - destruct (proj1 (updateScore_spec (state_with active_session None)
                       "ABC123" "id-ann" 10) 0%nat active_session)
      as (i & p & Hi & Hp & Hfirst & Hrun & _).
    + reflexivity.
    + reflexivity.
    + reflexivity.
    + apply Exists_cons_hd. reflexivity.
    + eexists. split; [exact Hrun|].
      destruct i as [|[|i]]; simpl in Hi; [| |discriminate].
      * injection Hi as <-. reflexivity.
      * injection Hi as <-. discriminate Hp.
  - apply (proj1 (proj2 (updateScore_spec (state_with lobby_session None)
                           "ABC123" "id-ann" 10)) 0%nat lobby_session); reflexivity.
  - apply (proj1 (proj2 (proj2 (updateScore_spec (state_with active_session None)
                                  "NOSUCH" "id-ann" 10)))).
    reflexivity.
  - apply (proj1 (proj2 (proj2 (proj2 (updateScore_spec (state_with active_session None)
                                         "toString" "id-ann" 10))))).
    reflexivity.
  - apply (proj2 (proj2 (proj2 (proj2 (updateScore_spec (state_with active_session None)
                                         "ABC123" "id-zed" 10)))) 0%nat active_session).
    + reflexivity.
    + reflexivity.
    + repeat constructor; discriminate.
Defined.

(** ** leaveSession *)

(** C10. A leaveSession for an existing session in which no player has the
    given id returns normally and leaves the store and the heap as they
    were; the socket leaves the room, the whole store is written to the
    file and a sessionUpdate goes to the room.  Nothing is sent to the
    caller.  What is written holds, under every code of the store, the
    session stored there, this one included, and nothing under any other
    key. *)
Theorem leaveSession_unknown σ code playerId l s :
  sessions σ !! code = Some l → heap σ !! l = Some s →
  Forall (λ p, id p ≠ playerId) (players s) →
  leaveSession code playerId σ =
    (mkSt (sessions σ) (heap σ)
       (mkSocket (data (socket σ)) (rooms (socket σ) ∖ {[code]}))
       (out σ ++ [WriteFile (snapshot σ); RoomEmit (Some code) (sessionUpdate s)]),
     Some tt)
  ∧ snapshot σ !! code = Some s
  ∧ (∀ c l', sessions σ !! c = Some l' → snapshot σ !! c = heap σ !! l')
  ∧ (∀ c, sessions σ !! c = None → snapshot σ !! c = None).
Proof.
  intros Hc Hl Hf. split; [|split; [|split]].
  - run_unfold. simpl. rewrite (property_own _ _ _ Hc). simpl.
    rewrite (property_own _ _ _ Hc). simpl.
    rewrite (alter_lookup_insert _ _ _ _ Hl).
    rewrite (filter_keeps_all _ _ Hf), set_players_same, (list_insert_id _ _ _ Hl).
    rewrite Hl. simpl. by rewrite <- !app_assoc.
  - unfold snapshot. by rewrite snapshot_of_lookup, Hc.
  - intros c l' Hc'. unfold snapshot. by rewrite snapshot_of_lookup, Hc'.
  - intros c Hc'. unfold snapshot. by rewrite snapshot_of_lookup, Hc'.
Qed.

Lemma leaveSession_unknown_witness :
  leaveSession "ABC123" "id-zed" (state_with lobby_session (Some ("ABC123", "id-zed"))) =
    (mkSt {["ABC123" := 0%nat]} [lobby_session]
       (mkSocket (Some ("ABC123", "id-zed")) (∅ ∖ {["ABC123"]}))
       [WriteFile (snapshot (state_with lobby_session (Some ("ABC123", "id-zed"))));
        RoomEmit (Some "ABC123") (sessionUpdate lobby_session)],
     Some tt)
  ∧ snapshot (state_with lobby_session (Some ("ABC123", "id-zed"))) !! "ABC123" =
      Some lobby_session.
Proof.
  destruct (leaveSession_unknown (state_with lobby_session (Some ("ABC123", "id-zed")))
              "ABC123" "id-zed" 0%nat lobby_session) as (Hrun & Hin & _).
  - reflexivity.
  - reflexivity.
  - repeat constructor; discriminate.
  - split; [exact Hrun|exact Hin].
Defined.

(** ** disconnect *)

(** C3. When the association stored on the socket names an existing session,
    the disconnect handler removes the players with the stored id if that id
    is not the host's and leaves the list alone if it is; either way it then
    writes the file and sends a sessionUpdate to the room. *)
Theorem disconnect_spec σ code playerId l s :
  data (socket σ) = Some (code, playerId) →
  sessions σ !! code = Some l → heap σ !! l = Some s →
  let s' := if decide (playerId = hostPlayerId s) then s
            else set_players (filter (λ p, id p ≠ playerId) (players s)) s in
  let h' := <[l := s']> (heap σ) in
  disconnect σ =
    (mkSt (sessions σ) h' (socket σ)
       (out σ ++ [WriteFile (snapshot_of (sessions σ) h');
                  RoomEmit (Some code) (sessionUpdate s')]),
     Some tt)
  ∧ (playerId ≠ hostPlayerId s →
       players s' = filter (λ p, id p ≠ playerId) (players s))
  ∧ (playerId = hostPlayerId s → players s' = players s ∧ h' = heap σ).
Proof.
  intros Hd Hc Hl s' h'. split; [|split].
  - run_unfold. simpl. rewrite Hd. simpl. rewrite (property_own _ _ _ Hc). simpl.
    rewrite Hl. simpl.
    subst h' s'. destruct (decide (playerId = hostPlayerId s)) as [Heq|Hne].
    + rewrite bool_decide_eq_false_2 by (intros Hn; apply Hn; by f_equal).
      simpl. rewrite (property_own _ _ _ Hc). simpl. rewrite Hl. simpl.
      rewrite (list_insert_id _ _ _ Hl). by rewrite <- !app_assoc.
    + rewrite bool_decide_eq_true_2 by congruence.
      simpl. rewrite (property_own _ _ _ Hc). simpl.
      rewrite (alter_lookup_insert _ _ _ _ Hl), (lookup_insert_here _ _ _ _ Hl). simpl.
      rewrite (list_filter_iff (λ p, Some (id p) ≠ Some playerId) (λ p, id p ≠ playerId))
        by (intros p; split; intros Hp; congruence).
      by rewrite <- !app_assoc.
  - intros Hne. subst s'. by destruct (decide _).
  - intros Heq. subst h' s'. destruct (decide _); [|done].
    split; [done|]. by apply list_insert_id.
Qed.

Lemma disconnect_spec_witness :
  disconnect (state_with active_session (Some ("ABC123", "id-bob"))) =
    (mkSt {["ABC123" := 0%nat]} [set_players [ann] active_session]
       (mkSocket (Some ("ABC123", "id-bob")) ∅)
       [WriteFile (snapshot_of {["ABC123" := 0%nat]} [set_players [ann] active_session]);
        RoomEmit (Some "ABC123") (sessionUpdate (set_players [ann] active_session))],
     Some tt)
  ∧ disconnect (state_with active_session (Some ("ABC123", "id-ann"))) =
    (mkSt {["ABC123" := 0%nat]} [active_session]
       (mkSocket (Some ("ABC123", "id-ann")) ∅)
       [WriteFile (snapshot_of {["ABC123" := 0%nat]} [active_session]);
        RoomEmit (Some "ABC123") (sessionUpdate active_session)],
     Some tt).
Proof.
  split.
  - apply (disconnect_spec (state_with active_session (Some ("ABC123", "id-bob")))
             "ABC123" "id-bob" 0%nat active_session); reflexivity.
  - apply (disconnect_spec (state_with active_session (Some ("ABC123", "id-ann")))
             "ABC123" "id-ann" 0%nat active_session); reflexivity.
Defined.

(** ** Loading the store *)

Lemma load_Written now m :
  load now (Written m) =
    Some (filter (λ '(c, s), now c - createdAt s < TTL) m).
Proof.
  unfold load, Written, loadSessions, prune. simpl.
  rewrite bool_decide_eq_true_2.
  - f_equal. apply map_eq. intros c.
    rewrite map_lookup_imap, lookup_fmap, map_lookup_filter.
    destruct (m !! c) as [s|]; simpl; [|done].
    case_bool_decide; simplify_option_eq; done.
  - intros c e. rewrite lookup_fmap. by intros (s & _ & ->)%fmap_Some.
Qed.

Lemma filter_age_lookup now (m : gmap string Session) c :
  filter (λ '(c, s), now c - createdAt s < TTL) m !! c =
    match m !! c with
    | Some s => if decide (now c - createdAt s < TTL) then Some s else None
    | None => None
    end.
Proof.
  rewrite map_lookup_filter. destruct (m !! c) as [s|]; simpl; [|done].
  destruct (decide (now c - createdAt s < TTL)); by simplify_option_eq.
Qed.

(** C4, as the code has it.  From a file holding a mapping of sessions the
    server starts with that mapping without the entries whose age
    [now - createdAt] is 24 hours or more: an entry aged 25 hours is absent,
    so is one aged exactly 24 hours, one aged 23 hours is present
    unchanged.  A missing file and a file that is not JSON both give the
    empty mapping. *)
Theorem load_spec (now : string → Z) :
  load now Missing = Some ∅ ∧ load now Corrupt = Some ∅ ∧
  ∀ m, ∃ m', load now (Written m) = Some m' ∧
    (∀ c s, m' !! c = Some s ↔ m !! c = Some s ∧ now c - createdAt s < TTL) ∧
    (∀ c s, m !! c = Some s → TTL ≤ now c - createdAt s → m' !! c = None) ∧
    (∀ c s, m !! c = Some s → createdAt s = now c - 25 * hour → m' !! c = None) ∧
    (∀ c s, m !! c = Some s → createdAt s = now c - 24 * hour → m' !! c = None) ∧
    (∀ c s, m !! c = Some s → createdAt s = now c - 23 * hour → m' !! c = Some s).
Proof.
  split; [done|]. split; [done|]. intros m.
  exists (filter (λ '(c, s), now c - createdAt s < TTL) m).
  split; [apply load_Written|]. unfold hour.
  split; [|split; [|split; [|split]]]; intros c s.
  - rewrite filter_age_lookup. destruct (m !! c) as [s0|].
    + destruct (decide _) as [Hage|Hage].
      * split; [intros [= ->]; by split|intros [[= ->] _]; done].
      * split; [done|intros [[= ->] Hlt]; by destruct Hage].
    + split; [done|intros [? _]; done].
  - intros Hm Hage. rewrite filter_age_lookup, Hm.
    destruct (decide _); [lia|done].
  - intros Hm Hage. rewrite filter_age_lookup, Hm. unfold TTL.
    destruct (decide _); [lia|done].
  - intros Hm Hage. rewrite filter_age_lookup, Hm. unfold TTL.
    destruct (decide _); [lia|done].
  - intros Hm Hage. rewrite filter_age_lookup, Hm. unfold TTL.
    destruct (decide _); [done|lia].
Qed.

Lemma load_spec_witness :
  ∃ m', load (λ _, 100 * hour) (Written two_sessions) = Some m' ∧
        m' !! "OLD001" = None ∧ m' !! "NEW001" = Some recent_session.
Proof.
  destruct (proj2 (proj2 (load_spec (λ _, 100 * hour))) two_sessions)
    as (m' & Hload & _ & _ & Hold & _ & Hnew).
  exists m'. split; [exact Hload|]. split.
  - apply (Hold "OLD001" old_session); reflexivity.
  - apply (Hnew "NEW001" recent_session); reflexivity.
Defined.

(** C4, as the claim has it, fails.  A session created exactly 24 hours ago
    is not older than 24 hours, and start-up drops it.  And a file whose
    content is the JSON text [null], or a mapping with [null] under a code,
    does not give the empty mapping: start-up ends in a TypeError. *)
Lemma load_drops_day_old :
  let now := λ _ : string, 100 * hour in
  ¬ (TTL < now "DAY001" - createdAt day_old_session) ∧
  load now (Written {["DAY001" := day_old_session]}) = Some ∅ ∧
  load now (Holding json_null) = None ∧
  load now (Holding (json_object {["DAY001" := entry_null]})) = None.
Proof.
  split; [vm_compute; discriminate|].
  split; [rewrite load_Written; vm_compute; reflexivity|].
  split; reflexivity.
Qed.

(** ** createSession *)

Lemma upper_ascii_idemp c : upper_ascii (upper_ascii c) = upper_ascii c.
Proof.
  unfold upper_ascii.
  destruct ((97 <=? nat_of_ascii c)%nat && (nat_of_ascii c <=? 122)%nat) eqn:Hc.
  - apply andb_true_iff in Hc as [H1%Nat.leb_le H2%Nat.leb_le].
    rewrite nat_ascii_embedding by lia.
    replace ((97 <=? nat_of_ascii c - 32)%nat) with false; [done|].
    symmetry. apply Nat.leb_gt. lia.
  - by rewrite Hc.
Qed.

Lemma toUpperCase_idemp s : toUpperCase (toUpperCase s) = toUpperCase s.
Proof. induction s as [|c s IH]; simpl; [done|]. by rewrite upper_ascii_idemp, IH. Qed.

Lemma toUpperCase_length s : String.length (toUpperCase s) = String.length s.
Proof. induction s as [|c s IH]; simpl; [done|]. by rewrite IH. Qed.

Lemma nanoid_from_length size random i :
  String.length (nanoid_from size random i) = size.
Proof. revert i. induction size as [|n IH]; intros i; simpl; [done|]. by rewrite IH. Qed.

Lemma nanoid_length size random : String.length (nanoid size random) = size.
Proof. apply nanoid_from_length. Qed.

Lemma upper_symbol byte : upper_ascii (symbol byte) ∈ chars upper_alphabet.
Proof.
  assert (Forall (λ n, upper_ascii (symbol n) ∈ chars upper_alphabet) (seq 0 64)) as Hall
    by (apply (bool_decide_unpack _); vm_compute; exact I).
  rewrite Forall_forall in Hall.
  assert (symbol byte = symbol (byte mod 64)) as ->
    by (unfold symbol; by rewrite Nat.Div0.mod_mod).
  apply Hall, elem_of_seq. pose proof (Nat.mod_upper_bound byte 64). lia.
Qed.

Lemma upper_nanoid_from size random i :
  Forall (λ c, c ∈ chars upper_alphabet) (chars (toUpperCase (nanoid_from size random i))).
Proof.
  revert i. induction size as [|n IH]; intros i; simpl; [constructor|].
  constructor; [apply upper_symbol|apply IH].
Qed.

(** No upper-cased string is the name of a property of [Object.prototype]. *)
Lemma toUpperCase_not_inherited s : toUpperCase s ∉ Object_prototype.
Proof.
  assert (Forall (λ name, toUpperCase name ≠ name) Object_prototype) as Hall
    by (apply (bool_decide_unpack _); vm_compute; exact I).
  rewrite Forall_forall in Hall. intros Hin.
  apply (Hall _ Hin), toUpperCase_idemp.
Qed.

Lemma createSession_run σ nickname sessionName random_code random_id now :
  let code := toUpperCase (nanoid 6 random_code) in
  let playerId := nanoid 21 random_id in
  let player := mkPlayer playerId nickname 0 true in
  let session := mkSession code sessionName playerId [player] now false in
  let ss' := <[code := length (heap σ)]> (sessions σ) in
  let h' := heap σ ++ [session] in
  createSession nickname sessionName random_code random_id now σ =
    (mkSt ss' h'
       (mkSocket (Some (code, playerId)) ({[code]} ∪ rooms (socket σ)))
       (out σ ++ [SocketEmit (createSessionResponse session player);
                  WriteFile (snapshot_of ss' h');
                  RoomEmit (Some code) (sessionUpdate session)]),
     Some tt).
Proof.
  unfold createSession.
  generalize (toUpperCase (nanoid 6 random_code)) as code.
  generalize (nanoid 21 random_id) as playerId. intros playerId code.
  run_unfold. simpl. rewrite lookup_snoc. simpl.
  rewrite property_own with (l := length (heap σ))
    by apply plain_lookup_insert_eq.
  simpl. rewrite lookup_snoc. simpl.
  by rewrite <- !app_assoc.
Qed.

(** C8, as the code has it.  Every createSession returns normally.  The code
    is [nanoid(6)] in upper case: six characters, each a capital letter, a
    digit, [_] or [-].  The new record goes under that code, replacing
    whatever the store held there, and no other entry of the store changes.
    The record has the generated participant id as [hostPlayerId], the
    creator as its only player with that id, [isHost = true] and
    [score = 0], so that the id is unique in the session; [isActive = false]
    and [createdAt = now]; the caller gets the record in a
    createSessionResponse and the room in a sessionUpdate. *)
Theorem createSession_spec σ nickname sessionName random_code random_id now :
  let code := toUpperCase (nanoid 6 random_code) in
  let playerId := nanoid 21 random_id in
  let player := mkPlayer playerId nickname 0 true in
  let session := mkSession code sessionName playerId [player] now false in
  let l := length (heap σ) in
  let ss' := <[code := l]> (sessions σ) in
  let h' := heap σ ++ [session] in
  createSession nickname sessionName random_code random_id now σ =
    (mkSt ss' h'
       (mkSocket (Some (code, playerId)) ({[code]} ∪ rooms (socket σ)))
       (out σ ++ [SocketEmit (createSessionResponse session player);
                  WriteFile (snapshot_of ss' h');
                  RoomEmit (Some code) (sessionUpdate session)]),
     Some tt)
  ∧ String.length code = 6%nat
  ∧ Forall (λ c, c ∈ chars upper_alphabet) (chars code)
  ∧ toUpperCase code = code
  ∧ ids_unique session
  ∧ property ss' code = Own l ∧ h' !! l = Some session
  ∧ snapshot_of ss' h' !! code = Some session
  ∧ (∀ c, c ≠ code → ss' !! c = sessions σ !! c).
Proof.
  intros code playerId player session l ss' h'.
  assert (ss' !! code = Some l) as Hc by apply plain_lookup_insert_eq.
  assert (h' !! l = Some session) as Hl by apply lookup_snoc.
  split; [|split; [|split; [|split; [|split; [|split; [|split; [|split]]]]]]].
  - apply createSession_run.
  - subst code. by rewrite toUpperCase_length, nanoid_length.
  - apply upper_nanoid_from.
  - apply toUpperCase_idemp.
  - unfold ids_unique. simpl. apply NoDup_singleton.
  - by apply property_own.
  - done.
  - by rewrite snapshot_of_lookup, Hc.
  - intros c Hne. by apply plain_lookup_insert_ne.
Qed.

(** C8, as the claim has it, fails: the code of a new session need not be
    unique among the live sessions.  Two createSession calls draw the
    distinct values [abc123] and [ABC123] from [nanoid(6)]; both sessions get
    the code [ABC123], and the second call replaces the first session in the
    store. *)
Lemma createSession_code_not_unique :
  let σ1 := (createSession "Ann" "Game1" (spell "abc123") (spell "id-ann")
               1000 empty_state).1 in
  let σ2 := (createSession "Bob" "Game2" (spell "ABC123") (spell "id-bob")
               2000 σ1).1 in
  nanoid 6 (spell "abc123") = "abc123" ∧ nanoid 6 (spell "ABC123") = "ABC123" ∧
  "abc123" ≠ "ABC123" ∧
  snapshot σ1 =
    {["ABC123" := mkSession "ABC123" "Game1" (nanoid 21 (spell "id-ann"))
                    [mkPlayer (nanoid 21 (spell "id-ann")) "Ann" 0 true] 1000 false]} ∧
  toUpperCase (nanoid 6 (spell "ABC123")) ∈ dom (snapshot σ1) ∧
  snapshot σ2 =
    {["ABC123" := mkSession "ABC123" "Game2" (nanoid 21 (spell "id-bob"))
                    [mkPlayer (nanoid 21 (spell "id-bob")) "Bob" 0 true] 2000 false]}.
Proof.
  split; [reflexivity|]. split; [reflexivity|]. split; [discriminate|].
  split; [vm_compute; reflexivity|].
  split; [|vm_compute; reflexivity].
  apply elem_of_dom. vm_compute. eauto.
Qed.

(** ** No way back to the lobby *)

Lemma same_session_later_refl s : same_session_later s s.
Proof. by repeat split. Qed.

Lemma same_session_later_trans s1 s2 s3 :
  same_session_later s1 s2 → same_session_later s2 s3 → same_session_later s1 s3.
Proof.
  intros (Hc & Hh & Ht & Ha) (Hc' & Hh' & Ht' & Ha').
  repeat split; [congruence..|auto].
Qed.

Lemma heap_later_refl h : heap_later h h.
Proof. intros l s Hl. exists s. split; [done|apply same_session_later_refl]. Qed.

Lemma heap_later_trans h1 h2 h3 :
  heap_later h1 h2 → heap_later h2 h3 → heap_later h1 h3.
Proof.
  intros H12 H23 l s Hl.
  destruct (H12 l s Hl) as (s2 & Hl2 & Hs2).
  destruct (H23 l s2 Hl2) as (s3 & Hl3 & Hs3).
  exists s3. split; [done|]. by eapply same_session_later_trans.
Qed.

Lemma heap_later_length h h' : heap_later h h' → (length h ≤ length h')%nat.
Proof.
  intros H. destruct (decide (length h ≤ length h')%nat) as [|Hgt]; [done|].
  destruct (lookup_lt_is_Some_2 h (length h')) as [s Hs]; [lia|].
  destruct (H _ _ Hs) as (s' & Hs' & _).
  apply lookup_lt_Some in Hs'. lia.
Qed.

Lemma heap_later_snoc h s : heap_later h (h ++ [s]).
Proof.
  intros l s0 Hl. exists s0. split; [|apply same_session_later_refl].
  by apply lookup_app_l_Some.
Qed.

Lemma heap_later_alter f l h :
  (∀ s, same_session_later s (f s)) → heap_later h (alter f l h).
Proof.
  intros Hf j s Hj. destruct (decide (l = j)) as [->|Hne].
  - exists (f s). split; [|apply Hf]. by rewrite list_lookup_alter_eq, Hj.
  - exists s. split; [|apply same_session_later_refl].
    by rewrite list_lookup_alter_ne.
Qed.

Lemma slot_later_refl ss h : slot_later ss h ss.
Proof. intros c l Hc. exists l. auto. Qed.

Lemma store_later_refl ss h : store_later ss h ss h.
Proof. split; [apply heap_later_refl|]. split; [apply slot_later_refl|done]. Qed.

Lemma store_later_trans ss1 h1 ss2 h2 ss3 h3 :
  store_later ss1 h1 ss2 h2 → store_later ss2 h2 ss3 h3 →
  store_later ss1 h1 ss3 h3.
Proof.
  intros (Hh12 & Hs12 & Hw12) (Hh23 & Hs23 & Hw23).
  split; [by eapply heap_later_trans|]. split; [|auto].
  intros c l Hc.
  destruct (Hs12 c l Hc) as (l2 & Hc2 & Hl2).
  destruct (Hs23 c l2 Hc2) as (l3 & Hc3 & Hl3).
  exists l3. split; [done|].
  apply heap_later_length in Hh12.
  destruct Hl3 as [->|Hl3]; [done|]. right. lia.
Qed.

Section keeps.
Context {A B : Type}.

Lemma keeps_ret (a : A) : keeps (mret a).
Proof. intros σ. apply store_later_refl. Qed.

Lemma keeps_throw : keeps (throw : M A).
Proof. intros σ. apply store_later_refl. Qed.

Lemma keeps_bind (m : M A) (k : A → M B) :
  keeps m → (∀ a, keeps (k a)) → keeps (m ≫= k).
Proof.
  intros Hm Hk σ. unfold mbind, M_bind.
  specialize (Hm σ). destruct (m σ) as [σ1 [a|]]; simpl in *; [|done].
  eapply store_later_trans; [exact Hm|apply Hk].
Qed.
End keeps.

Lemma keeps_sessions_get c : keeps (sessions_get c).
Proof. intros σ. apply store_later_refl. Qed.

Lemma keeps_inherited_isActive_get name : keeps (inherited_isActive_get name).
Proof. intros σ. apply store_later_refl. Qed.

(** An assignment to a property of an inherited object touches no session
    and no own property of [sessions]. *)
Lemma keeps_inherited_isActive_set name : keeps (inherited_isActive_set name).
Proof.
  intros σ. split; [apply heap_later_refl|]. split; simpl.
  - intros c l Hc. exists l. split; [exact Hc|by left].
  - intros Hwf c l Hc. by apply (Hwf c l).
Qed.

Lemma keeps_deref l : keeps (deref l).
Proof. intros σ. apply store_later_refl. Qed.

Lemma keeps_effect e : keeps (effect e).
Proof. intros σ. apply store_later_refl. Qed.

Lemma keeps_saveSessions : keeps saveSessions.
Proof. intros σ. apply store_later_refl. Qed.

Lemma keeps_socket_join r : keeps (socket_join r).
Proof. intros σ. apply store_later_refl. Qed.

Lemma keeps_socket_leave r : keeps (socket_leave r).
Proof. intros σ. apply store_later_refl. Qed.

Lemma keeps_socket_data_set d : keeps (socket_data_set d).
Proof. intros σ. apply store_later_refl. Qed.

Lemma keeps_socket_data_get : keeps socket_data_get.
Proof. intros σ. apply store_later_refl. Qed.

Lemma keeps_modify l f :
  (∀ s, same_session_later s (f s)) → keeps (modify l f).
Proof.
  intros Hf σ. split; [by apply heap_later_alter|].
  split; [apply slot_later_refl|]. simpl.
  intros Hwf c j Hc. apply lookup_lt_is_Some. rewrite length_alter.
  apply lookup_lt_is_Some. by eapply Hwf.
Qed.

(** [sessions[code] = session] right after the allocation of [session]. *)
Lemma keeps_new_session_set s c :
  keeps (session ← new_session s; sessions_set c session).
Proof.
  intros σ. split; [|split]; simpl.
  - apply heap_later_snoc.
  - intros c' l Hc. destruct (decide (c = c')) as [->|Hne].
    + exists (length (heap σ)). rewrite plain_lookup_insert_eq. split; [done|]. by right.
    + exists l. rewrite plain_lookup_insert_ne by done. auto.
  - intros Hwf c' l. destruct (decide (c = c')) as [->|Hne].
    + rewrite plain_lookup_insert_eq. intros [= <-]. rewrite lookup_snoc. eauto.
    + rewrite plain_lookup_insert_ne by done. intros Hc.
      destruct (Hwf _ _ Hc) as [s0 Hs0]. exists s0. by apply lookup_app_l_Some.
Qed.

Lemma same_session_set_players ps s : same_session_later s (set_players ps s).
Proof. by repeat split. Qed.

Lemma same_session_set_active s : same_session_later s (set_isActive true s).
Proof. by repeat split. Qed.

Create HintDb keeps.
#[local] Hint Resolve keeps_ret keeps_throw keeps_sessions_get keeps_deref
  keeps_inherited_isActive_get keeps_inherited_isActive_set
  keeps_effect keeps_saveSessions keeps_socket_join keeps_socket_leave
  keeps_socket_data_set keeps_socket_data_get keeps_modify
  same_session_set_players same_session_set_active : keeps.

Ltac keeps_step :=
  lazymatch goal with
  | |- keeps (mbind _ _) => apply keeps_bind; [|intros ?]
  | |- keeps (match ?x with _ => _ end) => destruct x
  | |- keeps _ =>
      first [ solve [eauto with keeps]
            | unfold socket_emit, room_emit, players_push, modify_player, player_at ]
  | |- ∀ _, _ => intros ?
  | |- same_session_later _ _ => solve [eauto with keeps]
  end.

Lemma keeps_broadcast code : keeps (broadcast code).
Proof. unfold broadcast. repeat keeps_step. Qed.

Lemma keeps_new_session_bind {B} s c (k : nat → M B) :
  (∀ l, keeps (k l)) →
  keeps (session ← new_session s; sessions_set c session;; k session).
Proof.
  intros Hk σ.
  eapply store_later_trans; [apply (keeps_new_session_set s c σ)|].
  apply (Hk (length (heap σ))).
Qed.

Lemma keeps_handler i : keeps (handler i).
Proof.
  destruct i; simpl;
    unfold createSession, joinSession, rejoinSession, startSession, updateScore,
      leaveSession, disconnect;
    try apply keeps_new_session_bind;
    repeat first [apply keeps_broadcast | keeps_step].
Qed.

Lemma dispatch_later ev w :
  store_later (srv_sessions w) (srv_heap w)
    (srv_sessions (dispatch ev w)) (srv_heap (dispatch ev w)).
Proof.
  destruct ev as [sid i]. unfold dispatch.
  destruct (srv_sockets w !! sid) as [sk|].
  - pose proof (keeps_handler i
      (mkSt (srv_sessions w) (srv_heap w) sk (srv_out w))) as H.
    destruct i; first [apply store_later_refl | exact H].
  - destruct i; apply store_later_refl.
Qed.

Lemma run_events_later evs w :
  store_later (srv_sessions w) (srv_heap w)
    (srv_sessions (run_events evs w)) (srv_heap (run_events evs w)).
Proof.
  revert w. induction evs as [|ev evs IH]; intros w; simpl.
  - apply store_later_refl.
  - eapply store_later_trans; [apply (dispatch_later ev w)|apply IH].
Qed.

(** C9. Along every sequence of events, on any connections and with any
    answers of [nanoid] and the clock, a session object that is active stays
    on the heap as the same session (same code, host and creation time) and
    stays active.  (A createSession that draws the code of a live session
    makes the store refer to a new object under that code; the session it
    displaces is not changed by that, see [store_slot_later].) *)
Theorem active_stays_active evs w l s :
  srv_heap w !! l = Some s → isActive s = true →
  ∃ s', srv_heap (run_events evs w) !! l = Some s' ∧ isActive s' = true ∧
        code s' = code s ∧ hostPlayerId s' = hostPlayerId s ∧
        createdAt s' = createdAt s.
Proof.
  intros Hl Ha.
  destruct (run_events_later evs w) as (Hheap & _ & _).
  destruct (Hheap l s Hl) as (s' & Hl' & Hc & Hh & Ht & Hact).
  exists s'. repeat split; auto.
Qed.

Lemma active_stays_active_witness :
  ∃ s', srv_heap (run_events busy_evening (server_with active_session)) !! 0%nat
          = Some s' ∧
        isActive s' = true ∧ code s' = "ABC123" ∧ hostPlayerId s' = "id-ann" ∧
        createdAt s' = 1000.
Proof.
  apply (active_stays_active busy_evening (server_with active_session)
           0%nat active_session); reflexivity.
Defined.

(** The store never loses a code: after any sequence of events the entry
    under a code either still refers to the object it referred to, or refers
    to an object allocated since (by a createSession that drew that code). *)
Lemma store_slot_later evs w c l :
  srv_sessions w !! c = Some l →
  ∃ l', srv_sessions (run_events evs w) !! c = Some l' ∧
        (l' = l ∨ (length (srv_heap w) ≤ l')%nat).
Proof.
  intros Hc. destruct (run_events_later evs w) as (_ & Hslot & _). by apply Hslot.
Qed.

(** ** Well-formed states and exceptions *)

(** ** Well-formed states and exceptions *)

Lemma lookup_alter_here {A} (f : A → A) (h : list A) l s :
  h !! l = Some s → alter f l h !! l = Some (f s).
Proof. intros H. by rewrite list_lookup_alter_eq, H. Qed.

(** One step of running a handler on a well-formed state by hand. *)
Ltac returns_step Hwf :=
  simpl; rewrite ?list_alter_alter_eq;
  match goal with
  | H : ?h !! ?l = Some ?s |- context [alter ?f ?l ?h !! ?l] =>
      rewrite (lookup_alter_here f h l s H)
  | H : ?e = _ |- context [?e] => rewrite H
  | |- context [(?l ++ [?x]) !! length ?l] => rewrite lookup_snoc
  | |- context [property (sessions ?σ) ?c] =>
      let Hp := fresh "Hp" in
      destruct (property (sessions σ) c) as [|?|?|] eqn:Hp;
      [|destruct (Hwf _ _ (proj1 (property_Own _ _ _) Hp)) as [? ?]|discriminate..]
  | |- context [if isActive ?s then _ else _] => destruct (isActive s) eqn:?
  | |- context [if negb (isActive ?s) then _ else _] => destruct (isActive s) eqn:?
  | |- context [list_find ?P ?l] =>
      let Hf := fresh "Hf" in
      destruct (list_find P l) as [[? ?]|] eqn:Hf;
      [apply list_find_Some in Hf as (? & ? & ?)|]
  | |- context [bool_decide ?P] => destruct (bool_decide P) eqn:?
  | |- context [data (socket ?σ)] => destruct (data (socket σ)) as [[? ?]|] eqn:?
  end.

(** In a well-formed state a handler returns normally when its event has a
    payload and the key it looks up in [sessions] names a session or
    nothing. *)
Lemma handler_returns i σ :
  wf (sessions σ) (heap σ) →
  plain_lookup_event (sessions σ) (data (socket σ)) i →
  (handler i σ).2 = Some tt.
Proof.
  intros Hwf [Hpayload Hplain].
  destruct i; try done; simpl in Hplain;
    try (specialize (Hplain _ eq_refl)); simpl handler.
  - rewrite createSession_run. done.
  - run_unfold. repeat returns_step Hwf; done.
  - run_unfold. repeat returns_step Hwf; done.
  - run_unfold. repeat returns_step Hwf; done.
  - run_unfold. repeat returns_step Hwf; done.
  - run_unfold. repeat returns_step Hwf; done.
  - run_unfold. repeat returns_step Hwf; done.
Qed.

Lemma run_events_wf evs w :
  wf (srv_sessions w) (srv_heap w) →
  wf (srv_sessions (run_events evs w)) (srv_heap (run_events evs w)).
Proof. intros Hwf. by apply (run_events_later evs w). Qed.

(** ** The initial state *)

Lemma boot_lookup m c :
  srv_sessions (boot m) !! c ≫= (λ l, srv_heap (boot m) !! l) = m !! c.
Proof.
  unfold boot. simpl. set (entries := map_to_list m).
  rewrite lookup_mkPlain.
  assert (NoDup (zip (entries.*1) (seq 0 (length entries))).*1) as Hnd.
  { rewrite fst_zip by (rewrite length_fmap, length_seq; lia).
    apply NoDup_fst_map_to_list. }
  destruct (m !! c) as [s|] eqn:Hm.
  - apply elem_of_map_to_list in Hm.
    apply list_elem_of_lookup in Hm as [i Hi]. fold entries in Hi.
    assert (zip (entries.*1) (seq 0 (length entries)) !! i = Some (c, i)) as Hz.
    { apply lookup_zip_with_Some. exists c, i. split; [done|].
      split; [by rewrite list_lookup_fmap, Hi|].
      apply lookup_seq. split; [done|]. by eapply lookup_lt_Some. }
    apply list_elem_of_lookup_2, (elem_of_list_to_map_1 _ _ _ Hnd) in Hz.
    rewrite Hz. simpl. by rewrite list_lookup_fmap, Hi.
  - rewrite (not_elem_of_list_to_map_1 _ c); [done|].
    rewrite fst_zip by (rewrite length_fmap, length_seq; lia).
    intros Hin. apply list_elem_of_fmap in Hin as ([c' s] & -> & Hin).
    apply elem_of_map_to_list in Hin. simpl in Hm. congruence.
Qed.

(** The server starts with the loaded mapping, in a well-formed state. *)
Lemma boot_snapshot m :
  snapshot_of (srv_sessions (boot m)) (srv_heap (boot m)) = m.
Proof.
  apply map_eq. intros c. rewrite snapshot_of_lookup. apply boot_lookup.
Qed.

Lemma boot_wf m : wf (srv_sessions (boot m)) (srv_heap (boot m)).
Proof.
  unfold boot. simpl. intros c l Hc.
  rewrite lookup_mkPlain in Hc.
  apply elem_of_list_to_map_2, list_elem_of_lookup in Hc as [i Hi].
  apply lookup_zip_with_Some in Hi as (c' & l' & [= -> ->] & Hk & Hl).
  apply lookup_seq in Hl as [-> Hlt].
  apply lookup_lt_is_Some. by rewrite length_fmap.
Qed.

Lemma start_snapshot now f w :
  start now f = Some w →
  load now f = Some (snapshot_of (srv_sessions w) (srv_heap w)).
Proof.
  unfold start. destruct (load now f) as [m|]; simpl; [|done].
  intros [= <-]. by rewrite boot_snapshot.
Qed.

Lemma start_wf now f w :
  start now f = Some w → wf (srv_sessions w) (srv_heap w).
Proof.
  unfold start. destruct (load now f) as [m|]; simpl; [|done].
  intros [= <-]. apply boot_wf.
Qed.

Lemma start_fresh now f w :
  start now f = Some w → flagged (srv_sessions w) = ∅ ∧ srv_out w = [].
Proof.
  unfold start. destruct (load now f) as [m|]; simpl; [|done].
  by intros [= <-].
Qed.

(** ** One event, one session *)

Lemma alter_fixed {A} (g : A → A) (h : list A) l s :
  h !! l = Some s → g s = s → alter g l h = h.
Proof.
  intros Hl Hg. rewrite (alter_lookup_insert _ _ _ _ Hl), Hg.
  by apply list_insert_id.
Qed.

Lemma alter_agree {A} (f g : A → A) (h : list A) l s :
  h !! l = Some s → f s = g s → alter f l h = alter g l h.
Proof.
  intros Hl Hfg. by rewrite !(alter_lookup_insert _ _ _ _ Hl), Hfg.
Qed.

Lemma property_lookup o k :
  o !! k = match property o k with Own l => Some l | _ => None end.
Proof.
  unfold property. destruct (o !! k); [done|]. by repeat case_bool_decide.
Qed.

(** One step of running a handler on a well-formed state by hand, keeping
    the facts that select the path. *)
Ltac exec_step Hwf :=
  simpl; rewrite ?list_alter_alter_eq;
  match goal with
  | H : ?h !! ?l = Some ?s |- context [alter ?f ?l ?h !! ?l] =>
      rewrite (lookup_alter_here f h l s H)
  | H : ?e = _ |- context [?e] => rewrite H
  | |- context [(?l ++ [?x]) !! length ?l] => rewrite lookup_snoc
  | |- context [property (sessions ?σ) ?c] =>
      let Hp := fresh "Hp" in
      let Hc := fresh "Hc" in
      pose proof (property_lookup (sessions σ) c) as Hc;
      destruct (property (sessions σ) c) as [|?|?|] eqn:Hp;
      [|destruct (Hwf _ _ Hc) as [? ?]
       |pose proof (property_Inherited _ _ _ Hp) as (_ & -> & ?)|]
  | Hc : sessions ?σ !! ?c = None, Hin : ?c ∈ Object_prototype
    |- context [property (mkPlain (own (sessions ?σ)) ?F) ?c] =>
      rewrite (property_inherited (mkPlain (own (sessions σ)) F) c Hc Hin)
  | |- context [inherited_isActive ?o ?n] => destruct (inherited_isActive o n) eqn:?
  | |- context [isActive ?s] => destruct (isActive s) eqn:?
  | |- context [list_find ?P ?l] =>
      let Hf := fresh "Hf" in
      destruct (list_find P l) as [[? ?]|] eqn:Hf;
      [pose proof Hf as (? & ? & ?)%list_find_Some|]
  | |- context [bool_decide ?P] => destruct (bool_decide P) eqn:?
  | |- context [data (socket ?σ)] => destruct (data (socket σ)) as [[? ?]|] eqn:?
  end.

Ltac use_facts :=
  simpl in *; rewrite ?list_alter_alter_eq;
  repeat (match goal with H : ?e = _ |- context [?e] => rewrite H end; simpl).

Ltac finish_store g :=
  simpl; split; [reflexivity|]; split;
  [ subst g;
    first [ reflexivity
          | symmetry; eapply alter_fixed; [eassumption|]; use_facts; reflexivity
          | eapply alter_agree; [eassumption|]; use_facts; reflexivity ]
  | unfold flagged_after; use_facts; reflexivity ].

(** The store and the heap after a handler: createSession allocates one
    object and binds its code to it; any other handler leaves the own
    properties of the store as they are and rewrites at most the object
    under the code it looks up; startSession alone may give an inherited
    object an [isActive]. *)
Lemma handler_store i σ :
  wf (sessions σ) (heap σ) →
  let d := data (socket σ) in
  let σ' := (handler i σ).1 in
  match i with
  | on_createSession nickname sessionName random_code random_id now =>
      sessions σ' =
        <[toUpperCase (nanoid 6 random_code) := length (heap σ)]> (sessions σ) ∧
      heap σ' = heap σ ++
        [mkSession (toUpperCase (nanoid 6 random_code)) sessionName
           (nanoid 21 random_id)
           [mkPlayer (nanoid 21 random_id) nickname 0 true] now false]
  | _ =>
      own (sessions σ') = own (sessions σ) ∧
      heap σ' =
        match looked_up i d ≫= (λ c, sessions σ !! c) with
        | Some l => alter (session_after i d) l (heap σ)
        | None => heap σ
        end ∧
      flagged (sessions σ') = flagged_after i (sessions σ)
  end.
Proof.
  intros Hwf d σ'. subst d σ'.
  destruct i; simpl looked_up; cbv beta iota;
    try set (g := session_after _ _); simpl handler.
  - done.
  - done.
  - by rewrite createSession_run.
  - run_unfold. repeat exec_step Hwf; finish_store g.
  - run_unfold. repeat exec_step Hwf; finish_store g.
  - run_unfold. repeat exec_step Hwf; finish_store g.
  - run_unfold. repeat exec_step Hwf; finish_store g.
  - run_unfold. repeat exec_step Hwf; finish_store g.
  - run_unfold. repeat exec_step Hwf; finish_store g.
Qed.


(** ** Invariants along every run *)

Lemma Forall_filter_keep {A} (P Q : A → Prop) `{∀ x, Decision (Q x)} (l : list A) :
  Forall P l → Forall P (filter Q l).
Proof.
  rewrite !Forall_forall. intros HP x Hx.
  apply list_elem_of_filter in Hx as [_ Hx]. by apply HP.
Qed.

(** A property of session objects that every handler keeps and every new
    session has holds on the whole heap along every run. *)
Lemma dispatch_sessions (I : Session → Prop) ev w :
  (∀ i d s, I s → I (session_after i d s)) →
  (∀ nickname sessionName random_code random_id now,
     I (mkSession (toUpperCase (nanoid 6 random_code)) sessionName
          (nanoid 21 random_id)
          [mkPlayer (nanoid 21 random_id) nickname 0 true] now false)) →
  wf (srv_sessions w) (srv_heap w) →
  Forall I (srv_heap w) → Forall I (srv_heap (dispatch ev w)).
Proof.
  intros Hafter Hnew Hwf HI. destruct ev as [sid i]. unfold dispatch.
  destruct (srv_sockets w !! sid) as [sk|]; [|by destruct i].
  pose proof (handler_store i (mkSt (srv_sessions w) (srv_heap w) sk (srv_out w)) Hwf)
    as Hst.
  destruct i; simpl in *; try done;
    destruct Hst as (_ & -> & _) || destruct Hst as (_ & ->);
    try (apply Forall_app; split; [done|by apply Forall_singleton]);
    try (destruct (srv_sessions w !! _); simpl; [|done];
         apply Forall_alter; [done|]; intros x _ Hx; by apply Hafter).
Qed.

Lemma dispatch_wf ev w :
  wf (srv_sessions w) (srv_heap w) →
  wf (srv_sessions (dispatch ev w)) (srv_heap (dispatch ev w)).
Proof. intros Hwf. by apply (dispatch_later ev w). Qed.

Lemma run_events_sessions (I : Session → Prop) evs w :
  (∀ i d s, I s → I (session_after i d s)) →
  (∀ nickname sessionName random_code random_id now,
     I (mkSession (toUpperCase (nanoid 6 random_code)) sessionName
          (nanoid 21 random_id)
          [mkPlayer (nanoid 21 random_id) nickname 0 true] now false)) →
  wf (srv_sessions w) (srv_heap w) →
  Forall I (srv_heap w) → Forall I (srv_heap (run_events evs w)).
Proof.
  intros Hafter Hnew. revert w.
  induction evs as [|ev evs IH]; intros w Hwf HI; simpl; [done|].
  apply IH; [by apply dispatch_wf|by apply dispatch_sessions].
Qed.

Lemma host_flag_ok_after i d s : host_flag_ok s → host_flag_ok (session_after i d s).
Proof.
  unfold host_flag_ok. intros Hs. destruct i; simpl; try done.
  - destruct (isActive s); simpl; [done|].
    apply Forall_app. split; [done|]. by apply Forall_singleton.
  - destruct (list_find _ _) as [[k p]|] eqn:Hf; simpl.
    + apply list_find_Some in Hf as (Hk & Hp & _).
      apply Forall_alter; [done|]. intros x Hx _. simpl.
      intros Hb%bool_decide_eq_true. congruence.
    + apply Forall_app. split; [done|]. apply Forall_singleton. simpl.
      by intros ?%bool_decide_eq_true.
  - by destruct (isActive s).
  - destruct (isActive s); [|done].
    destruct (list_find _ _) as [[k p]|]; simpl; [|done].
    apply Forall_alter; [done|]. by intros x _ Hx.
  - by apply Forall_filter_keep.
  - destruct (bool_decide _); simpl; [|done]. by apply Forall_filter_keep.
Qed.

Lemma lobby_scores_zero_after i d s :
  lobby_scores_zero s → lobby_scores_zero (session_after i d s).
Proof.
  unfold lobby_scores_zero. intros Hs. destruct i; simpl; try done.
  - destruct (isActive s) eqn:Ha; simpl; [intros; congruence|]. intros _.
    apply Forall_app. split; [by apply Hs|]. by apply Forall_singleton.
  - destruct (list_find _ _) as [[k p]|]; simpl; intros Ha.
    + apply Forall_alter; [by apply Hs|]. by intros x _ Hx.
    + apply Forall_app. split; [by apply Hs|]. by apply Forall_singleton.
  - destruct (isActive s) eqn:Ha; simpl; intros; congruence.
  - destruct (isActive s) eqn:Ha; [|by intros _; apply Hs].
    destruct (list_find _ _) as [[k p]|]; simpl; intros; congruence.
  - intros Ha. apply Forall_filter_keep. by apply Hs.
  - destruct (bool_decide _); simpl; [|exact Hs].
    intros Ha. apply Forall_filter_keep. by apply Hs.
Qed.

(** Well-formedness of a store with one entry. *)
Ltac wf_singleton :=
  let Hc := fresh in
  intros ? ? Hc; simpl in Hc;
  apply plain_lookup_singleton_Some in Hc as [_ <-]; eexists; reflexivity.

(** X10. Along every run the host flag is only ever on a player whose id is
    the session's [hostPlayerId]: createSession flags the creator, joinSession
    never flags, rejoinSession recomputes the flag from the id. *)
Theorem host_flag_invariant evs w :
  wf (srv_sessions w) (srv_heap w) →
  Forall host_flag_ok (srv_heap w) →
  Forall host_flag_ok (srv_heap (run_events evs w)).
Proof.
  apply run_events_sessions.
  - apply host_flag_ok_after.
  - intros. apply Forall_singleton. done.
Qed.

Lemma host_flag_invariant_witness :
  Forall host_flag_ok (srv_heap (run_events busy_evening (server_with active_session))).
Proof.
  apply (host_flag_invariant busy_evening (server_with active_session)).
  - wf_singleton.
  - repeat constructor; simpl; intros; solve [reflexivity | discriminate].
Defined.

(** X11. Along every run every player of a session that has not started has
    score 0: players enter with score 0 and updateScore only writes to an
    active session. *)
Theorem lobby_scores_invariant evs w :
  wf (srv_sessions w) (srv_heap w) →
  Forall lobby_scores_zero (srv_heap w) →
  Forall lobby_scores_zero (srv_heap (run_events evs w)).
Proof.
  apply run_events_sessions.
  - apply lobby_scores_zero_after.
  - intros. intros _. by apply Forall_singleton.
Qed.

Lemma lobby_scores_invariant_witness :
  Forall lobby_scores_zero
    (srv_heap (run_events busy_evening (server_with lobby_session))).
Proof.
  apply (lobby_scores_invariant busy_evening (server_with lobby_session)).
  - wf_singleton.
  - repeat constructor.
Defined.

Lemma session_after_code i d s : code (session_after i d s) = code s.
Proof.
  destruct i; simpl; try done.
  - by destruct (isActive s).
  - by destruct (list_find _ _) as [[k p]|].
  - by destruct (isActive s).
  - destruct (isActive s); [|done]. by destruct (list_find _ _) as [[k p]|].
  - by destruct (bool_decide _).
Qed.

Lemma lookup_alter_cases {A} (f : A → A) (h : list A) l j s :
  alter f l h !! j = Some s →
  ∃ s0, h !! j = Some s0 ∧ (s = s0 ∨ (l = j ∧ s = f s0)).
Proof.
  destruct (decide (l = j)) as [->|Hne].
  - rewrite list_lookup_alter_eq. destruct (h !! j) as [s0|]; [|done].
    intros [= <-]. eauto.
  - rewrite list_lookup_alter_ne by done. eauto.
Qed.

Lemma keyed_alter ss h l (g : Session → Session) :
  keyed ss h → (∀ s, code (g s) = code s) → keyed ss (alter g l h).
Proof.
  intros Hk Hg c j s Hc Hj.
  apply lookup_alter_cases in Hj as (s0 & Hs0 & [->|[_ ->]]).
  - by eapply Hk.
  - rewrite Hg. by eapply Hk.
Qed.

Lemma keyed_own ss ss' h : own ss' = own ss → keyed ss h → keyed ss' h.
Proof.
  intros Ho Hk c l s Hc. apply (Hk c l s).
  unfold lookup, plain_lookup in *. by rewrite <- Ho.
Qed.

Lemma dispatch_keyed ev w :
  wf (srv_sessions w) (srv_heap w) →
  keyed (srv_sessions w) (srv_heap w) →
  keyed (srv_sessions (dispatch ev w)) (srv_heap (dispatch ev w)).
Proof.
  intros Hwf Hk. destruct ev as [sid i]. unfold dispatch.
  destruct (srv_sockets w !! sid) as [sk|]; [|by destruct i].
  pose proof (handler_store i (mkSt (srv_sessions w) (srv_heap w) sk (srv_out w)) Hwf)
    as Hst.
  destruct i; simpl in *; try done;
    [|destruct Hst as (Hown & -> & _); eapply keyed_own; [exact Hown|];
      destruct (srv_sessions w !! _) as [l0|]; simpl; [|done];
      apply keyed_alter; [done|]; intros s; apply session_after_code ..].
  destruct Hst as [-> ->].
  intros c l s.
  destruct (decide (toUpperCase (nanoid 6 random_code) = c)) as [<-|Hne].
  - rewrite plain_lookup_insert_eq. intros [= <-]. rewrite lookup_snoc.
    by intros [= <-].
  - rewrite plain_lookup_insert_ne by done. intros Hc.
    destruct (Hwf _ _ Hc) as [s0 Hs0].
    rewrite (lookup_app_l_Some _ _ _ _ Hs0). intros [= <-]. by eapply Hk.
Qed.

(** X12. Along every run each session is stored under its own [code]: the
    record found under a code, and so the record broadcast to that code's
    room, carries that code. *)
Theorem keyed_invariant evs w :
  wf (srv_sessions w) (srv_heap w) →
  keyed (srv_sessions w) (srv_heap w) →
  keyed (srv_sessions (run_events evs w)) (srv_heap (run_events evs w)).
Proof.
  revert w. induction evs as [|ev evs IH]; intros w Hwf Hk; simpl; [done|].
  apply IH; [by apply dispatch_wf|by apply dispatch_keyed].
Qed.

Lemma keyed_invariant_witness :
  keyed (srv_sessions (run_events busy_evening (server_with lobby_session)))
    (srv_heap (run_events busy_evening (server_with lobby_session))).
Proof.
  apply (keyed_invariant busy_evening (server_with lobby_session)).
  - wf_singleton.
  - intros c l s Hc Hl. simpl in Hc, Hl.
    apply plain_lookup_singleton_Some in Hc as [<- <-]. simpl in Hl.
    by injection Hl as <-.
Defined.

(** X13. No handler removes an entry of the store: a code that is in use stays
    in use along every run, whatever the age of its session and however
    many of its players have left. *)
Theorem store_never_forgets evs w c :
  is_Some (srv_sessions w !! c) →
  is_Some (srv_sessions (run_events evs w) !! c).
Proof.
  intros [l Hc]. destruct (run_events_later evs w) as (_ & Hslot & _).
  destruct (Hslot c l Hc) as (l' & Hc' & _). eauto.
Qed.

Lemma store_never_forgets_witness :
  is_Some (srv_sessions (run_events busy_evening (server_with active_session))
             !! "ABC123").
Proof.
  apply (store_never_forgets busy_evening (server_with active_session) "ABC123").
  eexists. reflexivity.
Defined.


(** ** What is on the way to the file *)

Lemma last_write_snoc es e :
  last_write (es ++ [e]) =
    match e with WriteFile m => Some m | _ => last_write es end.
Proof.
  induction es as [|e0 es IH]; simpl.
  - by destruct e.
  - rewrite IH. by destruct e.
Qed.

Lemma last_write_app es es' :
  last_write (es ++ es') =
    match last_write es' with Some m => Some m | None => last_write es end.
Proof.
  induction es as [|e0 es IH]; simpl.
  - by destruct (last_write es').
  - rewrite IH. by destruct (last_write es').
Qed.

Ltac finish_persist :=
  simpl; rewrite ?last_write_snoc;
  first [ left; repeat split; reflexivity
        | right; unfold snapshot; simpl; reflexivity ].

(** A handler either leaves the session objects and the own properties of
    the store alone and requests no write, or its last write carries the
    store as the handler leaves it. *)
Lemma handler_persist i σ :
  wf (sessions σ) (heap σ) →
  let σ' := (handler i σ).1 in
  (snapshot σ' = snapshot σ ∧ last_write (out σ') = last_write (out σ)) ∨
  last_write (out σ') = Some (snapshot σ').
Proof.
  intros Hwf σ'. subst σ'. destruct i; simpl handler.
  - by left.
  - by left.
  - right. rewrite createSession_run. simpl. by rewrite last_write_app.
  - run_unfold. repeat exec_step Hwf; finish_persist.
  - run_unfold. repeat exec_step Hwf; finish_persist.
  - run_unfold. repeat exec_step Hwf; finish_persist.
  - run_unfold. repeat exec_step Hwf; finish_persist.
  - run_unfold. repeat exec_step Hwf; finish_persist.
  - run_unfold. repeat exec_step Hwf; finish_persist.
Qed.

Lemma run_events_persist m0 evs w :
  wf (srv_sessions w) (srv_heap w) →
  match last_write (srv_out w) with
  | Some m => m = snapshot_of (srv_sessions w) (srv_heap w)
  | None => snapshot_of (srv_sessions w) (srv_heap w) = m0
  end →
  let w' := run_events evs w in
  match last_write (srv_out w') with
  | Some m => m = snapshot_of (srv_sessions w') (srv_heap w')
  | None => snapshot_of (srv_sessions w') (srv_heap w') = m0
  end.
Proof.
  revert w. induction evs as [|ev evs IH]; intros w Hwf Hw; simpl; [done|].
  apply IH; [by apply dispatch_wf|].
  destruct ev as [sid i]. unfold dispatch.
  destruct (srv_sockets w !! sid) as [sk|]; [|by destruct i].
  pose proof (handler_persist i (mkSt (srv_sessions w) (srv_heap w) sk (srv_out w)) Hwf)
    as Hp.
  destruct i; try done; simpl in *;
    (destruct Hp as [[Hsnap ->] | ->];
     [unfold snapshot in Hsnap; simpl in Hsnap; rewrite Hsnap; exact Hw|reflexivity]).
Qed.

(** X14. After any run from a start-up that got through, the store in
    memory is the snapshot most recently handed to [writeFile]; as long as
    nothing was written it is still the mapping that was loaded.  So every
    change of the store is followed, within the same handler, by a write of
    the changed store. *)
Theorem memory_is_last_write now f evs w0 :
  start now f = Some w0 →
  let w := run_events evs w0 in
  match last_write (srv_out w) with
  | Some m => m = snapshot_of (srv_sessions w) (srv_heap w)
  | None => load now f = Some (snapshot_of (srv_sessions w) (srv_heap w))
  end.
Proof.
  intros Hstart w.
  pose proof (start_snapshot _ _ _ Hstart) as Hload.
  pose proof (run_events_persist
                (snapshot_of (srv_sessions w0) (srv_heap w0)) evs w0
                (start_wf _ _ _ Hstart)) as Hrun.
  destruct (start_fresh _ _ _ Hstart) as [_ Hout]. rewrite Hout in Hrun.
  specialize (Hrun eq_refl). simpl in Hrun. fold w in Hrun.
  destruct (last_write (srv_out w)); [done|]. by rewrite Hrun.
Qed.

Lemma memory_is_last_write_witness :
  let w := run_events busy_evening (boot {["NEW001" := recent_session]}) in
  match last_write (srv_out w) with
  | Some m => m = snapshot_of (srv_sessions w) (srv_heap w)
  | None => load (λ _, 100 * hour) (Written two_sessions) =
              Some (snapshot_of (srv_sessions w) (srv_heap w))
  end.
Proof.
  apply (memory_is_last_write (λ _, 100 * hour) (Written two_sessions) busy_evening
           (boot {["NEW001" := recent_session]})).
  unfold start. rewrite load_Written. vm_compute. reflexivity.
Defined.

(** X15. After a start-up that got through (the file missing, not JSON, or
    a JSON value whose entries with a readable time of creation are session
    records) and any run of events, the store refers to no object that is
    not there, so [broadcast] is never reached with a code that has no
    record: a handler returns normally whenever its event carries a payload
    and the key it looks up in [sessions] (the code of the payload, for a
    disconnect the code stored on the socket) names a session or nothing. *)
Theorem start_no_exception now f evs w0 i sk :
  start now f = Some w0 →
  let w := run_events evs w0 in
  plain_lookup_event (srv_sessions w) (data sk) i →
  (handler i (mkSt (srv_sessions w) (srv_heap w) sk (srv_out w))).2 = Some tt.
Proof.
  intros Hstart w Hplain. apply handler_returns; simpl; [|done].
  apply run_events_wf. by eapply start_wf.
Qed.

Lemma start_no_exception_witness :
  let w := run_events busy_evening (boot {["NEW001" := recent_session]}) in
  (handler (on_leaveSession "NEW001" "id-dan")
     (mkSt (srv_sessions w) (srv_heap w) (mkSocket None ∅) (srv_out w))).2 = Some tt.
Proof.
  apply (start_no_exception (λ _, 100 * hour) (Written two_sessions) busy_evening
           (boot {["NEW001" := recent_session]})
           (on_leaveSession "NEW001" "id-dan") (mkSocket None ∅)).
  - unfold start. rewrite load_Written. vm_compute. reflexivity.
  - split; [discriminate|]. intros c [= <-]. vm_compute. reflexivity.
Defined.

(** X16. A restart from a written snapshot gets through and brings back
    every written session that is younger than 24 hours, under its code and
    with every field as written (players, scores, [isActive]); it brings
    back no other code. *)
Theorem restart_restores now m c :
  ∃ w, start now (Written m) = Some w ∧
  (∀ s, m !! c = Some s → now c - createdAt s < TTL →
     ∃ l, srv_sessions w !! c = Some l ∧ srv_heap w !! l = Some s)
  ∧ (m !! c = None → srv_sessions w !! c = None)
  ∧ (∀ s, m !! c = Some s → TTL ≤ now c - createdAt s →
       srv_sessions w !! c = None).
Proof.
  unfold start. rewrite load_Written. simpl.
  set (m' := filter _ m). exists (boot m'). split; [done|].
  pose proof (boot_lookup m' c) as Hb.
  pose proof (boot_wf m') as Hwf.
  unfold m' in Hb. rewrite filter_age_lookup in Hb. fold m' in Hb.
  set (w := boot m') in *.
  split; [|split].
  - intros s Hm Hage. rewrite Hm in Hb.
    destruct (decide _); [|done].
    apply bind_Some in Hb as (l0 & Hl & Hs). eauto.
  - intros Hm. rewrite Hm in Hb.
    destruct (srv_sessions w !! c) as [l|] eqn:Hl; [|done].
    destruct (Hwf c l Hl) as [s Hs].
    change (srv_heap w !! l = None) in Hb. congruence.
  - intros s Hm Hage. rewrite Hm in Hb.
    destruct (decide _); [lia|].
    destruct (srv_sessions w !! c) as [l|] eqn:Hl; [|done].
    destruct (Hwf c l Hl) as [s' Hs].
    change (srv_heap w !! l = None) in Hb. congruence.
Qed.

Lemma restart_restores_witness :
  ∃ w, start (λ _, 100 * hour) (Written two_sessions) = Some w ∧
    (∃ l, srv_sessions w !! "NEW001" = Some l ∧
          srv_heap w !! l = Some recent_session)
    ∧ srv_sessions w !! "OLD001" = None.
Proof.
  destruct (restart_restores (λ _, 100 * hour) two_sessions "NEW001")
    as (w & Hw & Hnew & _).
  destruct (restart_restores (λ _, 100 * hour) two_sessions "OLD001")
    as (w' & Hw' & _ & _ & Hold).
  exists w. split; [exact Hw|]. split.
  - apply (Hnew recent_session); reflexivity.
  - rewrite Hw in Hw'. injection Hw' as <-.
    apply (Hold old_session); [reflexivity|]. vm_compute. discriminate.
Defined.

(** ** Joining and leaving *)

Lemma joinSession_run σ code nickname random_id l s :
  sessions σ !! code = Some l → heap σ !! l = Some s → isActive s = false →
  let p := mkPlayer (nanoid 21 random_id) nickname 0 false in
  let s' := set_players (players s ++ [p]) s in
  let h' := <[l := s']> (heap σ) in
  joinSession code nickname random_id σ =
    (mkSt (sessions σ) h'
       (mkSocket (Some (code, nanoid 21 random_id)) ({[code]} ∪ rooms (socket σ)))
       (out σ ++ [SocketEmit (joinSessionResponse s' p);
                  WriteFile (snapshot_of (sessions σ) h');
                  RoomEmit (Some code) (sessionUpdate s')]),
     Some tt).
Proof.
  intros Hc Hl Ha. unfold joinSession.
  generalize (nanoid 21 random_id) as playerId. intros playerId. cbv zeta.
  run_unfold. simpl. rewrite (property_own _ _ _ Hc). simpl. rewrite Hl. simpl.
  rewrite Ha. simpl.
  rewrite (alter_lookup_insert _ _ _ _ Hl), (lookup_insert_here _ _ _ _ Hl). simpl.
  rewrite (property_own _ _ _ Hc). simpl.
  rewrite (lookup_insert_here _ _ _ _ Hl). simpl.
  by rewrite <- !app_assoc.
Qed.

Lemma leaveSession_run σ code playerId l s :
  sessions σ !! code = Some l → heap σ !! l = Some s →
  let s' := set_players (filter (λ p, id p ≠ playerId) (players s)) s in
  let h' := <[l := s']> (heap σ) in
  leaveSession code playerId σ =
    (mkSt (sessions σ) h'
       (mkSocket (data (socket σ)) (rooms (socket σ) ∖ {[code]}))
       (out σ ++ [WriteFile (snapshot_of (sessions σ) h');
                  RoomEmit (Some code) (sessionUpdate s')]),
     Some tt).
Proof.
  intros Hc Hl s' h'.
  run_unfold. simpl. rewrite (property_own _ _ _ Hc). simpl.
  rewrite (property_own _ _ _ Hc). simpl.
  rewrite (alter_lookup_insert _ _ _ _ Hl), (lookup_insert_here _ _ _ _ Hl). simpl.
  by rewrite <- !app_assoc.
Qed.

(** X1. A joinSession on a session that has not started puts the newcomer,
    with the id drawn from [nanoid], score 0 and no host flag, behind the
    players already there, stores (code, id) on the socket and puts the
    socket in the room; the caller gets a joinSessionResponse, the store is
    written and the room gets a sessionUpdate, all with the new list. *)
Theorem joinSession_accepted σ code nickname random_id l s :
  sessions σ !! code = Some l → heap σ !! l = Some s → isActive s = false →
  let p := mkPlayer (nanoid 21 random_id) nickname 0 false in
  let s' := set_players (players s ++ [p]) s in
  let h' := <[l := s']> (heap σ) in
  joinSession code nickname random_id σ =
    (mkSt (sessions σ) h'
       (mkSocket (Some (code, nanoid 21 random_id)) ({[code]} ∪ rooms (socket σ)))
       (out σ ++ [SocketEmit (joinSessionResponse s' p);
                  WriteFile (snapshot_of (sessions σ) h');
                  RoomEmit (Some code) (sessionUpdate s')]),
     Some tt)
  ∧ length (players s') = S (length (players s))
  ∧ (∀ j q, players s !! j = Some q → players s' !! j = Some q)
  ∧ snapshot_of (sessions σ) h' !! code = Some s'.
Proof.
  intros Hc Hl Ha p s' h'. split; [by apply joinSession_run|].
  split; [|split].
  - simpl. rewrite length_app. simpl. lia.
  - intros j q Hj. simpl. by apply lookup_app_l_Some.
  - rewrite snapshot_of_lookup, Hc. simpl.
    by eapply lookup_insert_here.
Qed.

Lemma joinSession_accepted_witness :
  let s' := set_players [ann; bob; zed] lobby_session in
  joinSession "ABC123" "Zed" (spell "id-zed") (state_with lobby_session None) =
    (mkSt {["ABC123" := 0%nat]} [s']
       (mkSocket (Some ("ABC123", id zed)) ({["ABC123"]} ∪ ∅))
       [SocketEmit (joinSessionResponse s' zed);
        WriteFile (snapshot_of {["ABC123" := 0%nat]} [s']);
        RoomEmit (Some "ABC123") (sessionUpdate s')],
     Some tt).
Proof.
  apply (joinSession_accepted (state_with lobby_session None)
           "ABC123" "Zed" (spell "id-zed") 0%nat lobby_session); reflexivity.
Defined.

(** X2. A leaveSession on an existing session drops every player with the
    given id and keeps the others in their order, whether or not the session
    has started and whether or not the id is the host's; [hostPlayerId] and
    [socket.data] stay as they are, the socket leaves the room, the store is
    written and the room gets a sessionUpdate. *)
Theorem leaveSession_removes σ code playerId l s :
  sessions σ !! code = Some l → heap σ !! l = Some s →
  let s' := set_players (filter (λ p, id p ≠ playerId) (players s)) s in
  let h' := <[l := s']> (heap σ) in
  leaveSession code playerId σ =
    (mkSt (sessions σ) h'
       (mkSocket (data (socket σ)) (rooms (socket σ) ∖ {[code]}))
       (out σ ++ [WriteFile (snapshot_of (sessions σ) h');
                  RoomEmit (Some code) (sessionUpdate s')]),
     Some tt)
  ∧ Forall (λ p, id p ≠ playerId) (players s')
  ∧ (∀ p, p ∈ players s → id p ≠ playerId → p ∈ players s')
  ∧ hostPlayerId s' = hostPlayerId s ∧ isActive s' = isActive s.
Proof.
  intros Hc Hl s' h'. split; [by apply leaveSession_run|].
  split; [|split; [|done]].
  - apply Forall_forall. intros p Hp. simpl in Hp.
    by apply list_elem_of_filter in Hp as [Hp _].
  - intros p Hp Hid. simpl. by apply list_elem_of_filter.
Qed.

Lemma leaveSession_removes_witness :
  leaveSession "ABC123" "id-ann" (state_with active_session (Some ("ABC123", "id-ann"))) =
    (mkSt {["ABC123" := 0%nat]} [set_players [bob] active_session]
       (mkSocket (Some ("ABC123", "id-ann")) (∅ ∖ {["ABC123"]}))
       [WriteFile (snapshot_of {["ABC123" := 0%nat]} [set_players [bob] active_session]);
        RoomEmit (Some "ABC123") (sessionUpdate (set_players [bob] active_session))],
     Some tt).
Proof.
  apply (leaveSession_removes (state_with active_session (Some ("ABC123", "id-ann")))
           "ABC123" "id-ann" 0%nat active_session); reflexivity.
Defined.

(** X3. When the host leaves through leaveSession no other player is made
    host: in a session where only the host's id carries the flag, no player
    is flagged afterwards, and [hostPlayerId] still names the player who
    left. *)
Theorem host_leaves_no_successor σ code l s :
  sessions σ !! code = Some l → heap σ !! l = Some s → host_flag_ok s →
  ∃ s', heap (leaveSession code (hostPlayerId s) σ).1 !! l = Some s' ∧
        hostPlayerId s' = hostPlayerId s ∧
        Forall (λ p, isHost p = false ∧ id p ≠ hostPlayerId s') (players s').
Proof.
  intros Hc Hl Hs. rewrite (leaveSession_run _ _ _ _ _ Hc Hl). simpl.
  eexists. split; [by eapply lookup_insert_here|]. split; [done|]. simpl.
  apply Forall_forall. intros p [Hid Hp]%list_elem_of_filter.
  split; [|done]. unfold host_flag_ok in Hs.
  rewrite Forall_forall in Hs. specialize (Hs p Hp).
  destruct (isHost p); [|done]. by destruct Hid; apply Hs.
Qed.

Lemma host_leaves_no_successor_witness :
  ∃ s', heap (leaveSession "ABC123" "id-ann" (state_with active_session None)).1
          !! 0%nat = Some s' ∧
        hostPlayerId s' = "id-ann" ∧
        Forall (λ p, isHost p = false ∧ id p ≠ hostPlayerId s') (players s').
Proof.
  apply (host_leaves_no_successor (state_with active_session None)
           "ABC123" 0%nat active_session).
  - reflexivity.
  - reflexivity.
  - repeat constructor; simpl; intros; solve [reflexivity | discriminate].
Defined.

(** X4. rejoinSession and leaveSession for a code under which [sessions]
    has nothing, own or inherited, and a disconnect whose socket names no
    such property (nothing stored on it, or a code that has no record),
    return normally, change nothing and send nothing, not even an error to
    the caller. *)
Theorem missing_session_silent σ code :
  (property (sessions σ) code = Undefined →
     (∀ playerId nickname, rejoinSession code playerId nickname σ = (σ, Some tt)) ∧
     (∀ playerId, leaveSession code playerId σ = (σ, Some tt)))
  ∧ (property (sessions σ) (propertyKey (fst <$> data (socket σ))) = Undefined →
       disconnect σ = (σ, Some tt)).
Proof.
  split.
  - intros Hc. split; intros; run_unfold; simpl; by rewrite Hc.
  - intros Hc. run_unfold. simpl. by rewrite Hc.
Qed.

Lemma missing_session_silent_witness :
  rejoinSession "NOSUCH" "id-bob" "Bob" (state_with active_session None) =
    (state_with active_session None, Some tt)
  ∧ leaveSession "NOSUCH" "id-bob" (state_with active_session None) =
    (state_with active_session None, Some tt)
  ∧ disconnect (state_with active_session None) =
    (state_with active_session None, Some tt)
  ∧ disconnect (state_with active_session (Some ("NOSUCH", "id-bob"))) =
    (state_with active_session (Some ("NOSUCH", "id-bob")), Some tt).
Proof.
  split; [|split; [|split]].
  - apply (proj1 (missing_session_silent (state_with active_session None) "NOSUCH")).
    reflexivity.
  - apply (proj1 (missing_session_silent (state_with active_session None) "NOSUCH")).
    reflexivity.
  - apply (proj2 (missing_session_silent (state_with active_session None) "NOSUCH")).
    reflexivity.
  - apply (proj2 (missing_session_silent
                    (state_with active_session (Some ("NOSUCH", "id-bob"))) "NOSUCH")).
    reflexivity.
Defined.

(** Well-formedness of a concrete store, by evaluation. *)
Lemma wf_decide (ss : Plain) h :
  bool_decide (map_Forall (λ _ l, (l < length h)%nat) (own ss)) = true → wf ss h.
Proof.
  intros H%bool_decide_eq_true c l Hc. apply lookup_lt_is_Some. by eapply H.
Qed.

(** X5. A handler changes at most one session object, the one under the code
    it looks up: every other object on the heap is as before.  The store
    changes only in createSession, and there only under the new code. *)
Theorem other_sessions_untouched i σ :
  wf (sessions σ) (heap σ) →
  let σ' := (handler i σ).1 in
  (∀ l s, heap σ !! l = Some s →
     looked_up i (data (socket σ)) ≫= (λ c, sessions σ !! c) ≠ Some l →
     heap σ' !! l = Some s)
  ∧ (∀ c, match i with
          | on_createSession _ _ random_code _ _ =>
              toUpperCase (nanoid 6 random_code) ≠ c
          | _ => True
          end → sessions σ' !! c = sessions σ !! c).
Proof.
  intros Hwf σ'. subst σ'. pose proof (handler_store i σ Hwf) as Hst.
  destruct i; simpl in *;
    try (destruct Hst as (Hs & Hh & _);
         split; [|by intros c _; unfold lookup, plain_lookup; rewrite Hs];
         intros l s Hl Hne; rewrite Hh;
         destruct (sessions σ !! _) as [l0|]; simpl in *; [|done];
         rewrite list_lookup_alter_ne; [done|congruence]).
  - by split.
  - by split.
  - destruct Hst as [Hs Hh]. split.
    + intros l s Hl _. rewrite Hh. by apply lookup_app_l_Some.
    + intros c Hc. rewrite Hs. by apply plain_lookup_insert_ne.
Qed.

Lemma other_sessions_untouched_witness :
  heap (handler (on_leaveSession "ABC123" "id-bob") (state_two None)).1 !! 1%nat
    = Some other_session
  ∧ sessions (handler (on_createSession "Eve" "Game3" (spell "qrs456")
                         (spell "id-eve") 9000)
                (state_two None)).1 !! "XYZ789" = Some 1%nat.
Proof.
  assert (wf (sessions (state_two None)) (heap (state_two None))) as Hwf
    by (apply wf_decide; vm_compute; reflexivity).
  split.
  - apply (proj1 (other_sessions_untouched (on_leaveSession "ABC123" "id-bob")
                    (state_two None) Hwf) 1%nat other_session); [reflexivity|].
    vm_compute. discriminate.
  - apply (proj2 (other_sessions_untouched
                    (on_createSession "Eve" "Game3" (spell "qrs456")
                       (spell "id-eve") 9000)
                    (state_two None) Hwf) "XYZ789").
    vm_compute. discriminate.
Defined.

(** X6. Joining and then leaving undoes itself on the store: after a
    joinSession with an id no player of the lobby session has, a
    leaveSession with that id gives back the store and the heap as they
    were before the join. *)
Theorem join_then_leave σ code nickname random_id l s :
  sessions σ !! code = Some l → heap σ !! l = Some s → isActive s = false →
  Forall (λ p, id p ≠ nanoid 21 random_id) (players s) →
  let σ1 := (joinSession code nickname random_id σ).1 in
  leaveSession code (nanoid 21 random_id) σ1 =
    (mkSt (sessions σ) (heap σ)
       (mkSocket (Some (code, nanoid 21 random_id))
          (({[code]} ∪ rooms (socket σ)) ∖ {[code]}))
       (out σ1 ++ [WriteFile (snapshot σ); RoomEmit (Some code) (sessionUpdate s)]),
     Some tt).
Proof.
  intros Hc Hl Ha Hf σ1. subst σ1.
  rewrite (joinSession_run _ _ _ _ _ _ Hc Hl Ha). cbv zeta.
  revert Hf. generalize (nanoid 21 random_id) as playerId. intros playerId Hf.
  simpl.
  set (s1 := set_players (players s ++ [mkPlayer playerId nickname 0 false]) s).
  assert (<[l := s1]> (heap σ) !! l = Some s1) as Hl1 by (by eapply lookup_insert_here).
  match goal with
  | |- leaveSession _ _ ?σ1 = _ =>
      rewrite (leaveSession_run σ1 code playerId l s1 Hc Hl1)
  end. simpl.
  rewrite list_insert_insert_eq, filter_app, (filter_keeps_all _ _ Hf).
  rewrite filter_cons_False by (simpl; intros Hn; by apply Hn).
  rewrite filter_nil, app_nil_r.
  replace (set_players (players s) s1) with s by (by destruct s).
  by rewrite (list_insert_id _ _ _ Hl).
Qed.

Lemma join_then_leave_witness :
  (leaveSession "ABC123" (id zed)
     (joinSession "ABC123" "Zed" (spell "id-zed")
        (state_with lobby_session None)).1).1.(heap)
    = [lobby_session].
Proof.
  unfold zed, id.
  rewrite (join_then_leave (state_with lobby_session None)
             "ABC123" "Zed" (spell "id-zed") 0%nat lobby_session).
  - reflexivity.
  - reflexivity.
  - reflexivity.
  - reflexivity.
  - apply (bool_decide_unpack _). vm_compute. exact I.
Defined.

Lemma join_all_cons code sk nickname random_id js σ :
  join_all code ((sk, nickname, random_id) :: js) σ =
    join_all code js
      (joinSession code nickname random_id (mkSt (sessions σ) (heap σ) sk (out σ))).1.
Proof. reflexivity. Qed.

Lemma join_all_heap code js σ l s :
  sessions σ !! code = Some l → heap σ !! l = Some s → isActive s = false →
  sessions (join_all code js σ) = sessions σ ∧
  heap (join_all code js σ) =
    <[l := set_players
             (players s ++ ((λ '(_, nickname, random_id),
                               mkPlayer (nanoid 21 random_id) nickname 0 false)
                              <$> js)) s]>
      (heap σ).
Proof.
  revert σ s. induction js as [|[[sk nickname] random_id] js IH]; intros σ s Hc Hl Ha.
  - simpl. rewrite app_nil_r, set_players_same. split; [done|].
    symmetry. by apply list_insert_id.
  - rewrite join_all_cons.
    rewrite (joinSession_run (mkSt (sessions σ) (heap σ) sk (out σ))
               code nickname random_id l s Hc Hl Ha). cbv zeta. simpl fst.
    set (s1 := set_players
                 (players s ++ [mkPlayer (nanoid 21 random_id) nickname 0 false]) s).
    match goal with
    | |- context [join_all code js ?σ1] =>
        destruct (IH σ1 s1) as [Hs Hh];
          [done|by eapply lookup_insert_here|done|rewrite Hs, Hh]
    end.
    split; [done|]. cbn [heap fmap list_fmap].
    rewrite list_insert_insert_eq. subst s1. cbn [players set_players].
    by rewrite <- app_assoc.
Qed.

(** X7. create, join, join, ...: after a createSession and any number of
    joinSession events for its code, from any connections, the session
    holds the creator followed by the joiners in the order they arrived,
    the creator alone flagged host and everybody at score 0. *)
Theorem joins_in_arrival_order σ nickname sessionName random_code random_id now js :
  let code := toUpperCase (nanoid 6 random_code) in
  let σ1 := (createSession nickname sessionName random_code random_id now σ).1 in
  heap (join_all code js σ1) !! length (heap σ) =
    Some (mkSession code sessionName (nanoid 21 random_id)
            (mkPlayer (nanoid 21 random_id) nickname 0 true ::
             ((λ '(_, nickname, random_id),
                 mkPlayer (nanoid 21 random_id) nickname 0 false) <$> js))
            now false).
Proof.
  intros code σ1. subst σ1.
  rewrite (createSession_run σ nickname sessionName random_code random_id now).
  cbv zeta. fold code. simpl fst.
  set (session := mkSession code sessionName (nanoid 21 random_id)
                    [mkPlayer (nanoid 21 random_id) nickname 0 true] now false).
  match goal with
  | |- context [join_all code js ?σ1] =>
      destruct (join_all_heap code js σ1 (length (heap σ)) session) as [_ Hh];
        [apply plain_lookup_insert_eq|apply lookup_snoc|reflexivity|rewrite Hh]
  end.
  cbn [heap]. erewrite lookup_insert_here by apply lookup_snoc. reflexivity.
Qed.

(** ** Repeating an event *)

Lemma list_find_alter_fst {A} (P : A → Prop) `{∀ x, Decision (P x)}
    (f : A → A) k (l : list A) :
  (∀ x, P (f x) ↔ P x) →
  fst <$> list_find P (alter f k l) = fst <$> list_find P l.
Proof.
  intros Hf. revert k. induction l as [|x l IH]; intros k; [done|].
  destruct k as [|k]; csimpl.
  - destruct (decide (P x)) as [Hx|Hx].
    + rewrite decide_True by (by apply Hf). done.
    + rewrite decide_False by (by rewrite Hf). done.
  - destruct (decide (P x)); [done|].
    rewrite <- !option_fmap_compose. specialize (IH k).
    destruct (list_find P (alter f k l)) as [[j y]|],
             (list_find P l) as [[j' y']|]; simpl in *; congruence.
Qed.

Lemma alter_twice {A} (f : A → A) k (l : list A) :
  (∀ x, f (f x) = f x) → alter f k (alter f k l) = alter f k l.
Proof.
  intros Hf. rewrite list_alter_alter_eq. apply list_alter_ext; [|done].
  intros x _. apply Hf.
Qed.

Lemma filter_twice {A} (P : A → Prop) `{∀ x, Decision (P x)} (l : list A) :
  filter P (filter P l) = filter P l.
Proof.
  apply filter_keeps_all, Forall_forall. intros x Hx.
  by apply list_elem_of_filter in Hx as [Hx _].
Qed.

Lemma session_after_twice i d s :
  (∀ n sn fc fid now, i ≠ on_createSession n sn fc fid now) →
  (∀ c n fid, i ≠ on_joinSession c n fid) →
  session_after i d (session_after i d s) = session_after i d s.
Proof.
  intros Hcreate Hjoin. destruct i; simpl; try done.
  - by destruct (Hjoin code0 nickname0 random_id).
  - destruct (list_find _ (players s)) as [[k p]|] eqn:Hf; simpl.
    + pose proof (list_find_alter_fst (λ p, id p = playerId)
        (set_nickname nickname0 ∘ set_isHost (bool_decide (playerId = hostPlayerId s)))
        k (players s)) as Hfst.
      rewrite Hf in Hfst. simpl in Hfst.
      destruct (list_find _ (alter _ k (players s))) as [[k' p']|];
        [|by discriminate Hfst].
      injection Hfst as ->; [|done]. simpl.
      by rewrite alter_twice.
    + rewrite (list_find_app_r _ _ _ Hf). simpl.
      rewrite decide_True by done. simpl.
      rewrite (alter_app_r_alt _ _ _ (length (players s))) by lia.
      by rewrite Nat.sub_diag.
  - destruct (isActive s) eqn:Ha; simpl; by rewrite ?Ha.
  - destruct (isActive s) eqn:Ha; simpl; [|by rewrite Ha].
    destruct (list_find _ (players s)) as [[k p]|] eqn:Hf; simpl; rewrite Ha.
    + pose proof (list_find_alter_fst (λ p, id p = playerId)
        (set_score score0) k (players s)) as Hfst.
      rewrite Hf in Hfst. simpl in Hfst.
      destruct (list_find _ (alter _ k (players s))) as [[k' p']|];
        [|by discriminate Hfst].
      injection Hfst as ->; [|done]. simpl.
      by rewrite alter_twice.
    + by rewrite Hf.
  - by rewrite filter_twice.
  - destruct (bool_decide (snd <$> d ≠ Some (hostPlayerId s))) eqn:Hb;
      simpl; rewrite Hb; [|done].
    simpl. by rewrite filter_twice.
Qed.

Lemma broadcast_socket code σ : socket (broadcast code σ).1 = socket σ.
Proof.
  run_unfold. simpl.
  destruct (property (sessions σ) _) as [|l|name|]; simpl; try done.
  by destruct (heap σ !! l).
Qed.

Lemma disconnect_socket σ : socket (disconnect σ).1 = socket σ.
Proof.
  unfold disconnect, socket_data_get. unfold mbind at 1, M_bind at 1. cbv beta iota.
  unfold sessions_get. unfold mbind at 1, M_bind at 1. cbv beta iota.
  destruct (property (sessions σ) _) as [|l|name|]; try done.
  - unfold deref. unfold mbind at 1, M_bind at 1. cbv beta iota.
    destruct (heap σ !! l) as [s|] eqn:Hl; [|done].
    unfold mbind at 1, M_bind at 1.
    destruct (bool_decide _); unfold modify, mret, M_ret; cbv beta iota;
      by rewrite broadcast_socket.
  - unfold mbind at 1, M_bind at 1.
    destruct (bool_decide _); unfold throw, mret, M_ret; cbv beta iota;
      [done|by rewrite broadcast_socket].
  - unfold mbind at 1, M_bind at 1.
    destruct (bool_decide _); unfold throw, mret, M_ret; cbv beta iota;
      [done|by rewrite broadcast_socket].
Qed.

Lemma lookup_own_eq (ss ss' : Plain) :
  own ss' = own ss → ∀ c, ss' !! c = ss !! c.
Proof. intros Ho c. unfold lookup, plain_lookup. by rewrite Ho. Qed.

Lemma Plain_eq (o o' : Plain) : own o = own o' → flagged o = flagged o' → o = o'.
Proof. destruct o, o'. simpl. by intros -> ->. Qed.

(** A second startSession under the same name finds the [isActive] the
    first one set. *)
Lemma flagged_after_twice i ss ss1 :
  own ss1 = own ss → flagged ss1 = flagged_after i ss →
  flagged_after i ss1 = flagged ss1.
Proof.
  intros Ho Hf. destruct i; try reflexivity. simpl in *.
  assert (ss1 !! code0 = ss !! code0) as Hc
    by (unfold lookup, plain_lookup; by rewrite Ho).
  unfold property in *. rewrite Hc. destruct (ss !! code0); [done|].
  case_bool_decide as Hin.
  - unfold inherited_isActive in *.
    destruct (bool_decide (code0 ∈ flagged ss ∨ _)) eqn:Ha.
    + rewrite Hf. by rewrite Ha.
    + assert (code0 ∈ flagged ss1) as Hnow
        by (rewrite Hf; apply elem_of_union_l; by apply elem_of_singleton).
      by rewrite bool_decide_eq_true_2 by (by left).
  - by destruct (bool_decide (code0 = "isActive" ∧ "__proto__" ∈ flagged ss1)).
Qed.

Lemma handler_wf i σ :
  wf (sessions σ) (heap σ) →
  wf (sessions (handler i σ).1) (heap (handler i σ).1).
Proof. intros Hwf. by apply (keeps_handler i σ). Qed.

(** X8. Handling the same rejoinSession, startSession, updateScore,
    leaveSession or disconnect a second time leaves the store and every
    session as the first time left them: a repeated event only repeats the
    messages. *)
Theorem repeat_changes_nothing i σ :
  wf (sessions σ) (heap σ) →
  (∀ n sn fc fid now, i ≠ on_createSession n sn fc fid now) →
  (∀ c n fid, i ≠ on_joinSession c n fid) →
  let σ1 := (handler i σ).1 in
  let σ2 := (handler i σ1).1 in
  sessions σ2 = sessions σ1 ∧ heap σ2 = heap σ1.
Proof.
  intros Hwf Hcreate Hjoin σ1 σ2. subst σ2 σ1.
  pose proof (handler_store i σ Hwf) as H1.
  pose proof (handler_store i _ (handler_wf i σ Hwf)) as H2.
  pose proof (session_after_twice i) as Htwice.
  pose proof (flagged_after_twice i (sessions σ) (sessions (handler i σ).1)) as Hflag.
  destruct i; simpl in *; try done;
    try (by destruct (Hcreate nickname0 sessionName random_code random_id now));
    try (by destruct (Hjoin code0 nickname0 random_id));
    destruct H1 as (Hs1 & Hh1 & Hf1), H2 as (Hs2 & Hh2 & Hf2);
    (split; [apply Plain_eq; [done|]; rewrite Hf2; by apply Hflag|]);
    pose proof (lookup_own_eq _ _ Hs1) as Hsame;
    rewrite Hh2, Hsame, Hh1, ?disconnect_socket;
    (destruct (sessions σ !! _); simpl; [|done]);
    rewrite list_alter_alter_eq; (apply list_alter_ext; [|done]);
    intros x _;
    first [by apply (Htwice None x) | by apply (Htwice (data (socket σ)) x)].
Qed.

Lemma repeat_changes_nothing_witness :
  let i := on_rejoinSession "ABC123" "id-zed" "Zed" in
  heap (handler i (handler i (state_with active_session None)).1).1 =
  heap (handler i (state_with active_session None)).1.
Proof.
  intros i.
  apply (proj2 (repeat_changes_nothing i (state_with active_session None)
                  ltac:(wf_singleton) ltac:(discriminate) ltac:(discriminate))).
Defined.

(** ** Player ids *)

Lemma fmap_id_alter (f : Player → Player) k (ps : list Player) :
  (∀ p, id (f p) = id p) → id <$> alter f k ps = id <$> ps.
Proof.
  intros Hf. rewrite (list_fmap_alter id f (λ x, x)).
  - by apply list_alter_id.
  - apply Forall_forall. intros p _. apply Hf.
Qed.

Lemma NoDup_fmap_filter (P : Player → Prop) `{∀ p, Decision (P p)} (ps : list Player) :
  NoDup (id <$> ps) → NoDup (id <$> filter P ps).
Proof.
  induction ps as [|p ps IH]; [done|]. csimpl. intros [Hp Hps]%NoDup_cons.
  destruct (decide (P p)).
  - rewrite filter_cons_True by done. csimpl. apply NoDup_cons. split; [|auto].
    intros (q & Hq & Hin)%list_elem_of_fmap.
    apply list_elem_of_filter in Hin as [_ Hin].
    apply Hp. rewrite Hq. by apply list_elem_of_fmap_2.
  - rewrite filter_cons_False by done. auto.
Qed.

Lemma ids_unique_after i d s :
  ids_unique s →
  match i with
  | on_joinSession _ _ random_id => nanoid 21 random_id ∉ id <$> players s
  | _ => True
  end →
  ids_unique (session_after i d s).
Proof.
  unfold ids_unique. intros Hs Hfresh. destruct i; simpl; try done.
  - destruct (isActive s); simpl; [done|]. rewrite fmap_app. simpl.
    apply NoDup_app. split; [done|]. split; [|apply NoDup_singleton].
    intros x Hx ->%list_elem_of_singleton. done.
  - destruct (list_find _ _) as [[k p]|] eqn:Hf; simpl.
    + by rewrite fmap_id_alter.
    + apply list_find_None in Hf. rewrite fmap_app. simpl.
      apply NoDup_app. split; [done|]. split; [|apply NoDup_singleton].
      intros x Hx ->%list_elem_of_singleton.
      apply list_elem_of_fmap in Hx as (p & Hp & Hin).
      rewrite Forall_forall in Hf. by apply (Hf p Hin).
  - by destruct (isActive s).
  - destruct (isActive s); [|done].
    destruct (list_find _ _) as [[k p]|]; simpl; [|done].
    by rewrite fmap_id_alter.
  - by apply NoDup_fmap_filter.
  - destruct (bool_decide _); simpl; [|done]. by apply NoDup_fmap_filter.
Qed.

(** X9. No handler makes two players of a session share an id, provided the
    id [nanoid] gives a joinSession is not already in the session joined:
    rejoinSession adds an id only when the session does not have it. *)
Theorem ids_stay_unique i σ :
  wf (sessions σ) (heap σ) →
  Forall ids_unique (heap σ) →
  (∀ code nickname random_id l s,
     i = on_joinSession code nickname random_id →
     sessions σ !! code = Some l → heap σ !! l = Some s →
     nanoid 21 random_id ∉ id <$> players s) →
  Forall ids_unique (heap (handler i σ).1).
Proof.
  intros Hwf Hu Hfresh. pose proof (handler_store i σ Hwf) as Hst.
  destruct i; simpl in *; try done;
    (destruct Hst as (_ & Hh & _) || destruct Hst as (_ & Hh)); rewrite Hh;
    try (destruct (sessions σ !! _) as [l0|] eqn:Hc; simpl; [|done];
         apply Forall_alter; [done|]; intros x Hx Hux;
         apply ids_unique_after; [done|]; simpl; eauto).
  apply Forall_app. split; [done|]. apply Forall_singleton.
  unfold ids_unique. simpl. apply NoDup_singleton.
Qed.

Lemma ids_stay_unique_witness :
  Forall ids_unique
    (heap (handler (on_joinSession "ABC123" "Zed" (spell "id-zed"))
             (state_with lobby_session None)).1).
Proof.
  apply (ids_stay_unique (on_joinSession "ABC123" "Zed" (spell "id-zed"))
           (state_with lobby_session None)).
  - wf_singleton.
  - repeat constructor; vm_compute; intros Hin; inversion Hin as [|? ? ? Hin'];
      try inversion Hin'.
  - intros code nickname random_id l s [= <- <- <-] Hc Hl. simpl in Hc.
    apply plain_lookup_singleton_Some in Hc as [_ <-]. simpl in Hl.
    injection Hl as <-. vm_compute. intros Hin.
    inversion Hin as [|? ? ? Hin']; inversion Hin' as [|? ? ? Hin'']; inversion Hin''.
Defined.

(** ** The start-up pass over time *)

(** X17. The start-up pass only ever drops entries: what it returns is part
    of the sessions the file held, and with a later clock it gets through
    as well and returns part of what it returned with an earlier one; an
    entry once expired does not come back. *)
Theorem load_shrinks (now now' : string → Z) f m :
  (∀ c, now c ≤ now' c) →
  load now f = Some m →
  (∃ m', load now' f = Some m' ∧ m' ⊆ m) ∧ m ⊆ sessions_of (loadSessions f).
Proof.
  intros Hle. unfold load, prune.
  destruct (loadSessions f) as [| |entries]; [done| |].
  - intros [= <-]. split; [by exists ∅|]. apply map_empty_subseteq.
  - case_bool_decide; [|done]. intros [= <-]. split.
    + eexists. split; [done|]. apply map_subseteq_spec. intros c s.
      rewrite !map_lookup_imap. destruct (entries !! c) as [[| |s0]|]; simpl; try done.
      repeat case_bool_decide; try done. specialize (Hle c). lia.
    + apply map_subseteq_spec. intros c s. simpl.
      rewrite map_lookup_imap, lookup_omap.
      destruct (entries !! c) as [[| |s0]|]; simpl; try done.
      by case_bool_decide.
Qed.

Lemma load_shrinks_witness :
  (∃ m', load (λ _, 101 * hour) (Written two_sessions) = Some m' ∧
         m' ⊆ {["NEW001" := recent_session]})
  ∧ ({["NEW001" := recent_session]} : gmap string Session)
      ⊆ sessions_of (loadSessions (Written two_sessions)).
Proof.
  apply (load_shrinks (λ _, 100 * hour) (λ _, 101 * hour) (Written two_sessions)).
  - intros c. vm_compute. discriminate.
  - rewrite load_Written. vm_compute. reflexivity.
Defined.


(** ** Messages *)

Lemma property_Flag o k :
  property o k = Flag → o !! k = None ∧ k = "isActive" ∧ "__proto__" ∈ flagged o.
Proof.
  unfold property. destruct (o !! k) as [l|]; [done|].
  by repeat case_bool_decide.
Qed.

Lemma undefined_not_inherited : "undefined" ∉ Object_prototype.
Proof. apply (bool_decide_unpack _). vm_compute. exact I. Qed.

Lemma inherited_isActive_flagged (o : Plain) F name :
  inherited_isActive (mkPlain (own o) ({[name]} ∪ F)) name = true.
Proof.
  unfold inherited_isActive. apply bool_decide_eq_true_2. left. simpl.
  apply elem_of_union_l. by apply elem_of_singleton.
Qed.

Ltac effect_cases :=
  repeat match goal with
  | H : _ ∈ _ ++ _ |- _ => apply elem_of_app in H as [H|H]
  | H : _ ∈ [_] |- _ => apply list_elem_of_singleton in H as ->
  | H : _ ∈ _ :: _ |- _ => apply elem_of_cons in H as [->|H]
  end.

Ltac stored_here :=
  first [ eassumption
        | erewrite lookup_alter_here by eassumption; simpl;
          rewrite ?list_alter_alter_eq; reflexivity
        | apply lookup_snoc ].

(** The key [undefined] is no inherited property and not [isActive]. *)
Ltac no_such_key :=
  simpl in *;
  match goal with
  | H : "undefined" ∈ Object_prototype |- _ => by destruct undefined_not_inherited
  | H : property _ "undefined" = Flag |- _ =>
      by apply property_Flag in H as (_ & ? & _)
  end.

Ltac finish_effect :=
  first [ by left
        | no_such_key
        | right; simpl;
          first [ reflexivity | done | by eauto
                | eexists; split; [eassumption|stored_here]
                | split; [reflexivity|]; split; [reflexivity|];
                  split; [by apply property_inherited
                         |by apply inherited_isActive_flagged]
                | split;
                  [ apply list_elem_of_lookup; eexists;
                    first [ apply lookup_snoc
                          | erewrite lookup_alter_here by eassumption; reflexivity ]
                  | eexists _, _; split; [eassumption|stored_here] ] ] ].

(** X18. Every message a handler sends shows the state the handler leaves
    behind: a write carries the final store, a sessionUpdate to a room the
    record stored under that room's code, a response to the caller a stored
    session together with one of its players.  An error is only ever sent
    by joinSession and sessionStarted only by startSession, to the room of
    its code.  A sessionUpdate that carries no session is only ever sent by
    a startSession whose code names a property [sessions] inherits, and
    carries that inherited object, which has an [isActive] by then. *)
Theorem messages_are_current i σ e :
  wf (sessions σ) (heap σ) →
  let σ' := (handler i σ).1 in
  e ∈ out σ' →
  e ∈ out σ ∨
  match e with
  | WriteFile m => m = snapshot σ'
  | RoomEmit r (sessionUpdate s) =>
      ∃ l, sessions σ' !! propertyKey r = Some l ∧ heap σ' !! l = Some s
  | RoomEmit r sessionStarted => ∃ code, i = on_startSession code ∧ r = Some code
  | RoomEmit r (sessionUpdate_inherited name) =>
      i = on_startSession name ∧ r = Some name ∧
      property (sessions σ') name = Inherited name ∧
      inherited_isActive (sessions σ') name = true
  | RoomEmit r _ => False
  | SocketEmit (error _) =>
      ∃ code nickname random_id, i = on_joinSession code nickname random_id
  | SocketEmit (createSessionResponse s p)
  | SocketEmit (joinSessionResponse s p)
  | SocketEmit (rejoinSessionResponse s p) =>
      p ∈ players s ∧
      ∃ code l, sessions σ' !! code = Some l ∧ heap σ' !! l = Some s
  | SocketEmit _ => False
  end.
Proof.
  intros Hwf σ'. subst σ'. destruct i; simpl handler.
  - by left.
  - by left.
  - rewrite createSession_run. simpl. intros He. effect_cases; try finish_effect.
    + right. simpl. split; [apply list_elem_of_here|].
      eexists _, _. split; [apply plain_lookup_insert_eq|apply lookup_snoc].
    + right. simpl. eexists. split; [apply plain_lookup_insert_eq|apply lookup_snoc].
  - run_unfold. repeat exec_step Hwf; simpl; intros He; effect_cases; finish_effect.
  - run_unfold. repeat exec_step Hwf; simpl; intros He; effect_cases; finish_effect.
  - run_unfold. repeat exec_step Hwf; simpl; intros He; effect_cases; finish_effect.
  - run_unfold. repeat exec_step Hwf; simpl; intros He; effect_cases; finish_effect.
  - run_unfold. repeat exec_step Hwf; simpl; intros He; effect_cases; finish_effect.
  - run_unfold. repeat exec_step Hwf; simpl; intros He; effect_cases; finish_effect.
Qed.

Lemma messages_are_current_witness :
  let e := RoomEmit (Some "ABC123") sessionStarted in
  e ∈ out (state_with lobby_session None) ∨
  ∃ code, on_startSession "ABC123" = on_startSession code ∧ Some "ABC123" = Some code.
Proof.
  apply (messages_are_current (on_startSession "ABC123")
           (state_with lobby_session None)
           (RoomEmit (Some "ABC123") sessionStarted)).
  - wf_singleton.
  - vm_compute. do 2 apply list_elem_of_further. apply list_elem_of_here.
Defined.

(** ** Codes that name no session *)

(** X19. A joinSession under a code for which [sessions] has nothing, own or
    inherited, or whose session is active, returns normally; its one effect
    is the error reply to the caller (no room message, no write of the
    file), and the store, the heap and the socket are as before. *)
Theorem joinSession_rejected σ code nickname random_id :
  property (sessions σ) code = Undefined ∨
    (∃ l s, sessions σ !! code = Some l ∧ heap σ !! l = Some s ∧ isActive s = true) →
  joinSession code nickname random_id σ =
    (mkSt (sessions σ) (heap σ) (socket σ)
       (out σ ++ [SocketEmit (error "Session not found or already started")]),
     Some tt).
Proof.
  intros [Hc | (l & s & Hc & Hl & Ha)].
  - by apply joinSession_undefined.
  - by eapply joinSession_active.
Qed.

Lemma joinSession_rejected_witness :
  joinSession "NOSUCH" "Bob" (spell "id-bob") (state_with active_session None) =
    (mkSt {["ABC123" := 0%nat]} [active_session] (mkSocket None ∅)
       [SocketEmit (error "Session not found or already started")], Some tt)
  ∧ joinSession "ABC123" "Bob" (spell "id-bob") (state_with active_session None) =
    (mkSt {["ABC123" := 0%nat]} [active_session] (mkSocket None ∅)
       [SocketEmit (error "Session not found or already started")], Some tt).
Proof.
  split.
  - apply (joinSession_rejected (state_with active_session None) "NOSUCH").
    left. reflexivity.
  - apply (joinSession_rejected (state_with active_session None) "ABC123").
    right. exists 0%nat, active_session. repeat split; reflexivity.
Defined.

(** X20. A startSession on a lobby session sets [isActive], then writes the
    file and sends to the room a sessionUpdate with the updated record
    followed by a separate sessionStarted; under a code for which
    [sessions] has nothing, own or inherited, and on an active session it
    does nothing. *)
Theorem startSession_spec σ code :
  (∀ l s, sessions σ !! code = Some l → heap σ !! l = Some s → isActive s = false →
     let s' := set_isActive true s in
     let h' := <[l := s']> (heap σ) in
     isActive s' = true ∧
     startSession code σ =
       (mkSt (sessions σ) h' (socket σ)
          (out σ ++ [WriteFile (snapshot_of (sessions σ) h');
                     RoomEmit (Some code) (sessionUpdate s');
                     RoomEmit (Some code) sessionStarted]),
        Some tt))
  ∧ (property (sessions σ) code = Undefined → startSession code σ = (σ, Some tt))
  ∧ (∀ l s, sessions σ !! code = Some l → heap σ !! l = Some s → isActive s = true →
       startSession code σ = (σ, Some tt)).
Proof.
  split; [|split].
  - intros l s Hc Hl Ha s' h'. split; [done|]. by apply startSession_lobby.
  - intros Hc. run_unfold. simpl. by rewrite Hc.
  - intros l s Hc Hl Ha. run_unfold. simpl. rewrite (property_own _ _ _ Hc). simpl.
    rewrite Hl. simpl. by rewrite Ha.
Qed.

Lemma startSession_spec_witness :
  startSession "ABC123" (state_with lobby_session None) =
    (mkSt {["ABC123" := 0%nat]} [active_session] (mkSocket None ∅)
       [WriteFile (snapshot_of {["ABC123" := 0%nat]} [active_session]);
        RoomEmit (Some "ABC123") (sessionUpdate active_session);
        RoomEmit (Some "ABC123") sessionStarted], Some tt)
  ∧ startSession "NOSUCH" (state_with lobby_session None) =
      (state_with lobby_session None, Some tt)
  ∧ startSession "ABC123" (state_with active_session None) =
      (state_with active_session None, Some tt).
Proof.
  split; [|split].
  - apply (proj1 (startSession_spec (state_with lobby_session None) "ABC123")
             0%nat lobby_session); reflexivity.
  - apply (proj1 (proj2 (startSession_spec (state_with lobby_session None) "NOSUCH"))).
    reflexivity.
  - apply (proj2 (proj2 (startSession_spec (state_with active_session None) "ABC123"))
             0%nat active_session); reflexivity.
Defined.

(** X21. Under a code that names no session but a property [sessions]
    inherits from [Object.prototype], rejoinSession, leaveSession and a
    disconnect of a socket that stored such a code end in a TypeError before
    anything is changed or sent; updateScore returns at once as long as the
    inherited object has no [isActive], and ends in a TypeError once it has
    one. *)
Theorem inherited_name_throws σ code :
  sessions σ !! code = None → code ∈ Object_prototype →
  (∀ playerId nickname, rejoinSession code playerId nickname σ = (σ, None)) ∧
  (∀ playerId, leaveSession code playerId σ = (σ, None)) ∧
  (∀ playerId v,
     updateScore code playerId v σ =
       (σ, if inherited_isActive (sessions σ) code then None else Some tt)) ∧
  (∀ playerId, data (socket σ) = Some (code, playerId) → disconnect σ = (σ, None)).
Proof.
  intros Hc Hin. pose proof (property_inherited _ _ Hc Hin) as Hp.
  split; [|split; [|split]].
  - intros. run_unfold. simpl. by rewrite Hp.
  - intros. run_unfold. simpl. by rewrite Hp.
  - intros. run_unfold. simpl. rewrite Hp. simpl.
    by destruct (inherited_isActive (sessions σ) code).
  - intros playerId Hd. run_unfold. simpl. rewrite Hd. simpl. by rewrite Hp.
Qed.

Lemma inherited_name_throws_witness :
  rejoinSession "toString" "id-bob" "Bob" (state_with active_session None) =
    (state_with active_session None, None)
  ∧ leaveSession "toString" "id-bob" (state_with active_session None) =
    (state_with active_session None, None).
Proof.
  destruct (inherited_name_throws (state_with active_session None) "toString")
    as (Hrejoin & Hleave & _).
  - reflexivity.
  - apply (bool_decide_unpack _). vm_compute. exact I.
  - split; [apply Hrejoin|apply Hleave].
Defined.



(** X23. The code createSession stores a session under is never the name of
    a property [sessions] inherits: the assignment [sessions[code] = session]
    always makes an own property, which the later lookups find. *)
Theorem createSession_code_own σ nickname sessionName random_code random_id now :
  let code := toUpperCase (nanoid 6 random_code) in
  let σ' := (createSession nickname sessionName random_code random_id now σ).1 in
  (code ∉ Object_prototype) ∧ code ≠ "isActive" ∧
  data (socket σ') = Some (code, nanoid 21 random_id) ∧
  property (sessions σ') code = Own (length (heap σ)).
Proof.
  intros code σ'. subst σ'. rewrite createSession_run. cbv zeta. fold code.
  split; [apply toUpperCase_not_inherited|]. split; [|split; [done|]].
  - intros Heq. pose proof (toUpperCase_idemp (nanoid 6 random_code)) as Hid.
    fold code in Hid. rewrite Heq in Hid. discriminate Hid.
  - apply property_own, plain_lookup_insert_eq.
Qed.

(** ** Start-up on other file contents *)



